(** * Rule dependency graph of the Datalog rule optimizer

    A shallow embedding of [rule_optimizer.py]: the [Vertex] and
    [DependencyGraph] classes and the [RuleOptimizer] constructor, with the
    properties of the dependency graph stated over them.

    Python values are modelled as follows.
    - [set] of rule indices: [gset nat];
    - the [dict] from rule index to vertex: [gmap nat Vertex] (the code only
      ever walks it through [sorted(keys)], so insertion order is immaterial);
    - [str]: [string]; ["R{}".format(n)] is ["R" +:+ pretty n];
    - [sorted(s)] for a set of integers: [merge_sort Nat.le (elements s)];
    - the classes [Predicate], [Rule] and [Rules] come from the parser module,
      which is not part of the optimizer: a predicate is an opaque value with
      an [id] attribute compared with [==]. *)

From stdpp Require Import base gmap sets list strings sorting pretty relations.

(** String literals are read as [string]; [++], [≤] and the like keep their
    list and number meanings. *)
Open Scope string_scope.
Open Scope list_scope.
Open Scope nat_scope.
Open Scope stdpp_scope.

(** ** Data model *)

Section model.
(** [Predicate] objects and the values of their [id] attribute. The only
    operation the optimizer performs on an [id] is [==] (through [in]). *)
Context {Predicate PredId : Type} `{!EqDecision PredId}.
Context (predicate_id : Predicate → PredId).

(** Modelled from the spec: [Rule], a class of the parser module, which the
    optimizer imports and does not define: an ordered pair of a head
    predicate and a body, the ordered sequence of predicates (spec 3). The
    attributes carry the names under which the optimizer reads them, [head]
    and [predicates]. *)
Record Rule := mkRule {
  rule_head : Predicate;
  rule_predicates : list Predicate
}.

(** Modelled from the spec: [Rules], a class of the parser module: the
    ordered sequence of the rules of the program (spec 6), read by the
    optimizer through its attribute [rules]. *)
Record Rules := mkRules { rules_rules : list Rule }.

(** Modelled from the spec: [Rule.__init__(head, predicates)], of the parser
    module: the rule of that head and that body (spec 3). *)
Definition Rule_init (head : Predicate) (predicates : list Predicate) : Rule :=
  {| rule_head := head; rule_predicates := predicates |}.

(** [Vertex(Rule)]: the inherited [head] and [predicates], then [id],
    [edges] and [reverse]. *)
Record Vertex := mkVertex {
  vertex_rule : Rule;
  vertex_id : nat;
  vertex_edges : gset nat;
  vertex_reverse : gset nat
}.

(** [[p.id for p in ps]] *)
Definition predicate_ids (ps : list Predicate) : list PredId :=
  predicate_id <$> ps.

(** [x in l] on a Python list. *)
Definition py_in (x : PredId) (l : list PredId) : bool := bool_decide (x ∈ l).

(** Specification vocabulary: [rule] refers, in its body, to the predicate
    that [r] defines (the head identity of [r] is one of the body
    identities of [rule]). *)
Definition refers_to (rule r : Rule) : Prop :=
  predicate_id (rule_head r) ∈ predicate_ids (rule_predicates rule).

(** Specification vocabulary: [rule] with every body predicate of identity
    [x] struck out. *)
Definition without_predicate (x : PredId) (rule : Rule) : Rule :=
  {| rule_head := rule_head rule;
     rule_predicates :=
       filter (λ p, predicate_id p ≠ x) (rule_predicates rule) |}.

(** The loop of [Vertex.adjacency]; [i] is the counter of [enumerate] and
    [adjacent] the set built so far. *)
Fixpoint adjacency_loop (rule : Rule) (i : nat) (rs : list Rule)
    (adjacent : gset nat) : gset nat :=
  match rs with
  | [] => adjacent
  | r :: rs' =>
      adjacency_loop rule (S i) rs'
        (if py_in (predicate_id (rule_head r))
                  (predicate_ids (rule_predicates rule))
         then {[ i ]} ∪ adjacent
         else adjacent)
  end.

Definition adjacency (rule : Rule) (rules : Rules) : gset nat :=
  adjacency_loop rule 0 (rules_rules rules) ∅.

(** The loop of [Vertex.reverse_edges]. *)
Fixpoint reverse_edges_loop (rule : Rule) (i : nat) (rs : list Rule)
    (reverse : gset nat) : gset nat :=
  match rs with
  | [] => reverse
  | r :: rs' =>
      reverse_edges_loop rule (S i) rs'
        (if py_in (predicate_id (rule_head rule))
                  (predicate_ids (rule_predicates r))
         then {[ i ]} ∪ reverse
         else reverse)
  end.

Definition reverse_edges (rule : Rule) (rules : Rules) : gset nat :=
  reverse_edges_loop rule 0 (rules_rules rules) ∅.

(** [Vertex.__init__]: [super().__init__(head=rule.head,
    predicates=rule.predicates)], then the three assignments. *)
Definition Vertex_init (rule : Rule) (index : nat) (rules : Rules) : Vertex :=
  {| vertex_rule := Rule_init (rule_head rule) (rule_predicates rule);
     vertex_id := index;
     vertex_edges := adjacency rule rules;
     vertex_reverse := reverse_edges rule rules |}.

(** [DependencyGraph]: its [rules] attribute, the dict of vertices. *)
Record DependencyGraph := mkGraph { graph_rules : gmap nat Vertex }.

(** The loop of [DependencyGraph.__init__]: [self.rules[i] = Vertex(...)]. *)
Fixpoint DependencyGraph_loop (rules : Rules) (i : nat) (rs : list Rule)
    (d : gmap nat Vertex) : gmap nat Vertex :=
  match rs with
  | [] => d
  | rule :: rs' =>
      DependencyGraph_loop rules (S i) rs' (<[ i := Vertex_init rule i rules ]> d)
  end.

(** [DependencyGraph.__init__]. Its last statement, the [logger.debug] call,
    renders [self.reverse()] for the log and assigns nothing. *)
Definition DependencyGraph_init (rules : Rules) : DependencyGraph :=
  {| graph_rules := DependencyGraph_loop rules 0 (rules_rules rules) ∅ |}.

(** ** Rendering *)

(** [sorted(s)] *)
Definition sorted (s : gset nat) : list nat := merge_sort Nat.le (elements s).

(** ["R{}".format(n)] *)
Definition R_format (n : nat) : string := "R" +:+ pretty n.

(** The one-character string of a line feed. *)
Definition newline : string := String (Ascii.ascii_of_nat 10) EmptyString.

(** Specification vocabulary: the string holds no line feed. *)
Definition newline_free (s : string) : Prop :=
  Ascii.ascii_of_nat 10 ∉ String.list_ascii_of_string s.

(** [sep.join(l)] *)
Definition join (sep : string) (l : list string) : string := String.concat sep l.

(** ["R{}:{}".format(i, ",".join("R{}".format(r) for r in sorted(s)))] *)
Definition line_format (i : nat) (s : gset nat) : string :=
  "R" +:+ pretty i +:+ ":" +:+ join "," (R_format <$> sorted s).

(** [Vertex.__str__] *)
Definition Vertex_str (v : Vertex) : string :=
  line_format (vertex_id v) (vertex_edges v).

(** [sorted(self.rules.keys())] *)
Definition sorted_keys (g : DependencyGraph) : list nat :=
  sorted (dom (graph_rules g)).

(** The generator [f(self.rules[i]) for i in sorted(self.rules.keys())].
    Every [i] comes from the keys, so the subscript never raises. *)
Definition over_sorted_keys (f : Vertex → string) (g : DependencyGraph)
    : list string :=
  omap (λ i, f <$> graph_rules g !! i) (sorted_keys g).

(** [DependencyGraph.__str__] *)
Definition DependencyGraph_str (g : DependencyGraph) : string :=
  join newline (over_sorted_keys Vertex_str g) +:+ newline.

(** [DependencyGraph.reverse] *)
Definition DependencyGraph_reverse (g : DependencyGraph) : string :=
  join newline
    (over_sorted_keys (λ v, line_format (vertex_id v) (vertex_reverse v)) g)
  +:+ newline.

End model.

(** ** Stratification

    The optimizer stops at the graph: [evaluate_optimized_rules] is a stub and
    no code groups or orders the rules. The definitions of this section are
    therefore not a translation of code. *)

Section stratifier.
Context {Predicate : Type}.
Implicit Types (g : @DependencyGraph Predicate) (X G H : gset nat).

(** The forward edge set of vertex [i] (empty when [i] is no key). *)
Definition forward g (i : nat) : gset nat :=
  from_option vertex_edges ∅ (graph_rules g !! i).

(** The reverse edge set of vertex [i]. *)
Definition backward g (i : nat) : gset nat :=
  from_option vertex_reverse ∅ (graph_rules g !! i).

(** Modelled from the spec: one round of the search for a component (spec
    4.2): the neighbours of every member join the set. *)
Definition expand (next : nat → gset nat) X : gset nat := X ∪ set_bind next X.

(** Modelled from the spec: [n] rounds of that search. *)
Fixpoint closure (next : nat → gset nat) (n : nat) X : gset nat :=
  match n with
  | 0 => X
  | S n' => closure next n' (expand next X)
  end.

(** Specification vocabulary: the relation of a neighbour function, [y] is a
    neighbour of [x]. *)
Definition edge_of (next : nat → gset nat) : relation nat := λ x y, y ∈ next x.

(** Modelled from the spec: the rules that rule [i] depends on, directly or
    through other rules: the search along the forward edge sets, one round
    per vertex (spec 4.2). *)
Definition reachable g (i : nat) : gset nat :=
  closure (forward g) (size (graph_rules g)) {[ i ]}.

(** Modelled from the spec: the rules that depend on rule [i]: the same
    search along the reverse edge sets (spec 4.2). *)
Definition coreachable g (i : nat) : gset nat :=
  closure (backward g) (size (graph_rules g)) {[ i ]}.

(** Modelled from the spec: the strongly-connected component of rule [i],
    computed from the forward and reverse edge sets already present on each
    vertex (spec 4.2); the repository has no code for it. *)
Definition component g (i : nat) : gset nat := reachable g i ∩ coreachable g i.

(** Modelled from the spec: the components of the ids [ids], each listed
    once, at its first id (spec 4.2). *)
Fixpoint components_loop g (ids : list nat) (seen : gset nat) : list (gset nat) :=
  match ids with
  | [] => []
  | i :: ids' =>
      if decide (i ∈ seen) then components_loop g ids' seen
      else component g i :: components_loop g ids' (seen ∪ component g i)
  end.

(** Modelled from the spec: the strongly-connected components of the graph
    (spec 4.2), in ascending order of their lowest rule id. *)
Definition components g : list (gset nat) := components_loop g (sorted_keys g) ∅.

(** Modelled from the spec: group [G] depends on group [H] when one of its
    members has a forward edge into a rule of [H] (spec 4.2). *)
Definition depends_on g G H : Prop := ∃ i j, i ∈ G ∧ j ∈ H ∧ j ∈ forward g i.

(** Specification vocabulary: rules [i] and [j] depend on each other,
    directly or through other rules: they lie on a common cycle of forward
    edges, or [i = j]. *)
Definition mutually_dependent g (i j : nat) : Prop :=
  rtc (edge_of (forward g)) i j ∧ rtc (edge_of (forward g)) j i.

(** Specification vocabulary: [G] is the component of some vertex. *)
Definition is_component g G : Prop :=
  ∃ i, i ∈ dom (graph_rules g) ∧ G = component g i.

(** Specification vocabulary: everything that the members of [G] depend
    on. *)
Definition reach_of g G : gset nat := set_bind (reachable g) G.

(** Modelled from the spec: the same as a test. *)
Definition depends_onb g G H : bool := bool_decide (set_bind (forward g) G ∩ H ≠ ∅).

(** Modelled from the spec: a group is eligible when no other remaining
    group is one it depends on (spec 4.2). *)
Definition eligible g (remaining : list (gset nat)) G : bool :=
  forallb (λ H, bool_decide (H = G) || negb (depends_onb g G H)) remaining.

(** Modelled from the spec: topological sort of the components (spec 4.2).
    Each turn emits an eligible group; among several the first of
    [remaining], which is the one with the lowest rule id. *)
Fixpoint order_groups g (fuel : nat) (remaining : list (gset nat))
    : list (gset nat) :=
  match fuel with
  | 0 => []
  | S fuel' =>
      match list_find (λ G, eligible g remaining G = true) remaining with
      | Some (_, G) => G :: order_groups g fuel' (filter (λ H, H ≠ G) remaining)
      | None => []
      end
  end.

(** Modelled from the spec: the stratifier (spec 4.2), which the repository
    does not implement: the components of the graph in an order in which
    every group comes after the groups it depends on. *)
Definition stratify g : list (gset nat) :=
  order_groups g (length (components g)) (components g).

End stratifier.

(** ** The constructors over a store of objects

    The definitions above take the rules as values. Python passes references:
    a [Vertex] holds the very [head] and [predicates] objects of its rule, and
    the loops read the rules through the [Rules] object on every turn. The
    module below repeats the constructors over a store of objects, where a
    read of a missing attribute fails and where an assignment to an existing
    object would show. *)

Module Heap.
Section heap.
Context {Predicate PredId : Type} `{!EqDecision PredId}.
Context (predicate_id : Predicate → PredId).

(** Objects, at locations [nat]: a predicate; a Python list of references; a
    [Rule] with its [head] and [predicates] references; a [Rules] with its
    [rules] reference; a [Vertex] with the inherited references, its [id] and
    its two sets. *)
Inductive obj :=
  | OPredicate (p : Predicate)
  | OList (items : list nat)
  | ORule (head predicates : nat)
  | ORules (rules : nat)
  | OVertex (head predicates : nat) (id : nat) (edges reverse : gset nat).

(** [o.head], defined on a rule and on a vertex. *)
Definition get_head (h : gmap nat obj) (o : nat) : option nat :=
  match h !! o with
  | Some (ORule hd _) | Some (OVertex hd _ _ _ _) => Some hd
  | _ => None
  end.

(** [o.predicates] *)
Definition get_predicates (h : gmap nat obj) (o : nat) : option nat :=
  match h !! o with
  | Some (ORule _ ps) | Some (OVertex _ ps _ _ _) => Some ps
  | _ => None
  end.

(** [o.id] on a predicate. *)
Definition get_id (h : gmap nat obj) (o : nat) : option PredId :=
  match h !! o with
  | Some (OPredicate p) => Some (predicate_id p)
  | _ => None
  end.

(** The items of a list object. *)
Definition get_items (h : gmap nat obj) (o : nat) : option (list nat) :=
  match h !! o with
  | Some (OList items) => Some items
  | _ => None
  end.

(** [o.rules] *)
Definition get_rules (h : gmap nat obj) (o : nat) : option nat :=
  match h !! o with
  | Some (ORules r) => Some r
  | _ => None
  end.

(** [r.head.id] *)
Definition head_id (h : gmap nat obj) (r : nat) : option PredId :=
  hd ← get_head h r; get_id h hd.

(** [[p.id for p in rule.predicates]] *)
Definition body_ids (h : gmap nat obj) (rule : nat) : option (list PredId) :=
  ps ← get_predicates h rule; items ← get_items h ps; mapM (get_id h) items.

(** The loop of [Vertex.adjacency]. *)
Fixpoint adjacency_loop (h : gmap nat obj) (rule : nat) (i : nat)
    (rs : list nat) (adjacent : gset nat) : option (gset nat) :=
  match rs with
  | [] => Some adjacent
  | r :: rs' =>
      x ← head_id h r;
      ids ← body_ids h rule;
      adjacency_loop h rule (S i) rs'
        (if py_in x ids then {[ i ]} ∪ adjacent else adjacent)
  end.

Definition adjacency (h : gmap nat obj) (rule rules : nat) : option (gset nat) :=
  lst ← get_rules h rules; rs ← get_items h lst;
  adjacency_loop h rule 0 rs ∅.

(** The loop of [Vertex.reverse_edges]. *)
Fixpoint reverse_edges_loop (h : gmap nat obj) (rule : nat) (i : nat)
    (rs : list nat) (reverse : gset nat) : option (gset nat) :=
  match rs with
  | [] => Some reverse
  | r :: rs' =>
      x ← head_id h rule;
      ids ← body_ids h r;
      reverse_edges_loop h rule (S i) rs'
        (if py_in x ids then {[ i ]} ∪ reverse else reverse)
  end.

Definition reverse_edges (h : gmap nat obj) (rule rules : nat)
    : option (gset nat) :=
  lst ← get_rules h rules; rs ← get_items h lst;
  reverse_edges_loop h rule 0 rs ∅.

(** [Vertex(rule, index, rules)]: the new object sits at a location that was
    free, and nothing else is written. *)
Definition Vertex_init (h : gmap nat obj) (rule : nat) (index : nat)
    (rules : nat) : option (nat * gmap nat obj) :=
  hd ← get_head h rule;
  ps ← get_predicates h rule;
  edges ← adjacency h rule rules;
  reverse ← reverse_edges h rule rules;
  let self := fresh (dom h) in
  Some (self, <[ self := OVertex hd ps index edges reverse ]> h).

(** The loop of [DependencyGraph.__init__]; [d] is the dict [self.rules],
    from rule index to the location of the vertex. *)
Fixpoint DependencyGraph_loop (h : gmap nat obj) (rules : nat) (i : nat)
    (rs : list nat) (d : gmap nat nat) : option (gmap nat nat * gmap nat obj) :=
  match rs with
  | [] => Some (d, h)
  | rule :: rs' =>
      '(v, h') ← Vertex_init h rule i rules;
      DependencyGraph_loop h' rules (S i) rs' (<[ i := v ]> d)
  end.

(** [DependencyGraph(rules)]: the dict and the store afterwards. *)
Definition DependencyGraph_init (h : gmap nat obj) (rules : nat)
    : option (gmap nat nat * gmap nat obj) :=
  lst ← get_rules h rules; rs ← get_items h lst;
  DependencyGraph_loop h rules 0 rs ∅.

(** *** Specification vocabulary: what a store holds *)

(** The list object at [o] holds the predicates [ps], in order. *)
Definition repr_predicates (h : gmap nat obj) (o : nat)
    (ps : list Predicate) : Prop :=
  ∃ items, h !! o = Some (OList items) ∧
           Forall2 (λ l p, h !! l = Some (OPredicate p)) items ps.

(** The object at [o] is the rule [r]. *)
Definition repr_rule (h : gmap nat obj) (o : nat) (r : @Rule Predicate) : Prop :=
  ∃ hd ps, h !! o = Some (ORule hd ps) ∧
           h !! hd = Some (OPredicate (rule_head r)) ∧
           repr_predicates h ps (rule_predicates r).

(** The object at [o] is the [Rules] object of the list [rules], in order. *)
Definition repr_rules (h : gmap nat obj) (o : nat)
    (rules : @Rules Predicate) : Prop :=
  ∃ lst rs, h !! o = Some (ORules lst) ∧ h !! lst = Some (OList rs) ∧
            Forall2 (repr_rule h) rs (rules_rules rules).

(** The object at [o] is the vertex [v]. *)
Definition repr_vertex (h : gmap nat obj) (o : nat) (v : @Vertex Predicate) : Prop :=
  ∃ hd ps,
    h !! o = Some (OVertex hd ps (vertex_id v) (vertex_edges v) (vertex_reverse v)) ∧
    h !! hd = Some (OPredicate (rule_head (vertex_rule v))) ∧
    repr_predicates h ps (rule_predicates (vertex_rule v)).

(** The dict [d] of locations is the dict [g] of vertices. *)
Definition repr_graph (h : gmap nat obj) (d : gmap nat nat)
    (g : gmap nat (@Vertex Predicate)) : Prop :=
  ∀ i, option_Forall2 (repr_vertex h) (d !! i) (g !! i).

End heap.
End Heap.

(** ** The optimizer *)

Section optimizer.
Context {Predicate PredId : Type} `{!EqDecision PredId}.
Context (predicate_id : Predicate → PredId).

(** What the optimizer takes from the parser and from its parent class
    [DatalogInterpreter], neither of which it defines:
    - [Query]: the items of [datalog_program.queries.queries], used as keys
      of [self.rdbms];
    - [Relation]: what [evaluate_query] returns;
    - [Other]: the rest of a [DatalogProgram] (schemes and facts);
    - [Attrs]: the attributes other than [rdbms] that the parent constructor
      leaves on the object. *)
Context {Query Relation Other Attrs : Type} `{!EqDecision Query}.

(** [DatalogProgram]: its [rules], the list [queries.queries], the rest. *)
Record DatalogProgram := mkProgram {
  program_rules : @Rules Predicate;
  program_queries : list Query;
  program_other : Other
}.

(** The [RuleOptimizer] object. [rdbms] is used as a [dict] (subscript
    assignment here, [keys()] in [__str__]): an association list in insertion
    order. The two attributes that the constructor adds are absent until they
    are assigned. *)
Record RuleOptimizer := mkOptimizer {
  attrs : Attrs;
  rdbms : list (Query * Relation);
  dependency_graph : option (@DependencyGraph Predicate);
  rule_evaluation : option string
}.

(** [DatalogInterpreter.__init__(self, datalog_program, least_fix_point)]:
    the attributes and the [rdbms] it leaves on the object. *)
Context (DatalogInterpreter_init : DatalogProgram → bool → Attrs * list (Query * Relation)).

(** [self.evaluate_query(query)], a method of the parent class: a result
    computed from the query and the object. *)
Context (evaluate_query : RuleOptimizer → Query → Relation).

(** [d[k] = v] on a dict: the value of an existing key is replaced in place,
    a new key goes to the end. *)
Fixpoint dict_set (d : list (Query * Relation)) (k : Query) (v : Relation)
    : list (Query * Relation) :=
  match d with
  | [] => [(k, v)]
  | (k', v') :: d' =>
      if decide (k' = k) then (k', v) :: d' else (k', v') :: dict_set d' k v
  end.

(** [d.get(k)] *)
Fixpoint dict_get (d : list (Query * Relation)) (k : Query) : option Relation :=
  match d with
  | [] => None
  | (k', v') :: d' => if decide (k' = k) then Some v' else dict_get d' k
  end.

(** The calls that the constructor makes, in the order it makes them. *)
Inductive event :=
  | call_super_init (least_fix_point : bool)
  | call_DependencyGraph
  | call_evaluate_optimized_rules
  | call_evaluate_query (query : Query).

#[global] Instance event_eq_dec : EqDecision event.
Proof. solve_decision. Defined.

(** An object under construction and the calls made so far. *)
Record run := mkRun { object : RuleOptimizer; trace : list event }.

(** [RuleOptimizer.evaluate_optimized_rules] *)
Definition evaluate_optimized_rules (self : RuleOptimizer)
    (order : @DependencyGraph Predicate) : string := "".

(** One turn of the loop: [self.rdbms[query] = self.evaluate_query(query)]. *)
Definition query_step (st : run) (query : Query) : run :=
  let self := object st in
  let result := evaluate_query self query in
  {| object := {| attrs := attrs self;
                  rdbms := dict_set (rdbms self) query result;
                  dependency_graph := dependency_graph self;
                  rule_evaluation := rule_evaluation self |};
     trace := trace st ++ [call_evaluate_query query] |}.

(** [for query in datalog_program.queries.queries: ...] *)
Fixpoint query_loop (st : run) (queries : list Query) : run :=
  match queries with
  | [] => st
  | query :: queries' => query_loop (query_step st query) queries'
  end.

(** The object when the loop over the queries is entered: after the parent
    constructor, the graph construction and [evaluate_optimized_rules]. *)
Definition before_queries (datalog_program : DatalogProgram) : run :=
  let '(a, db) := DatalogInterpreter_init datalog_program false in
  let self0 := {| attrs := a; rdbms := db;
                  dependency_graph := None; rule_evaluation := None |} in
  let graph := DependencyGraph_init predicate_id (program_rules datalog_program) in
  let self1 := {| attrs := attrs self0; rdbms := rdbms self0;
                  dependency_graph := Some graph;
                  rule_evaluation := rule_evaluation self0 |} in
  let text := evaluate_optimized_rules self1 graph in
  let self2 := {| attrs := attrs self1; rdbms := rdbms self1;
                  dependency_graph := dependency_graph self1;
                  rule_evaluation := Some text |} in
  {| object := self2;
     trace := [call_super_init false; call_DependencyGraph;
               call_evaluate_optimized_rules] |}.

(** [RuleOptimizer.__init__] *)
Definition RuleOptimizer_init (datalog_program : DatalogProgram) : run :=
  query_loop (before_queries datalog_program) (program_queries datalog_program).

(** Specification vocabulary: the object on which query number [k] is
    evaluated. *)
Definition at_query (datalog_program : DatalogProgram) (k : nat) : RuleOptimizer :=
  object (query_loop (before_queries datalog_program)
            (take k (program_queries datalog_program))).

(** Specification vocabulary: does the event evaluate a query? *)
Definition is_query_event (e : event) : bool :=
  match e with call_evaluate_query _ => true | _ => false end.

End optimizer.

(** ** Example programs *)

(** A concrete predicate: its name and its parameters; the identity is the
    name. *)
Definition example_predicate : Type := string * list string.
Definition example_id (p : example_predicate) : string := fst p.

(** [anc(X,Y) :- par(X,Y).  anc(X,Y) :- par(X,Z), anc(Z,Y).] *)
Definition ancestor_rule0 : @Rule example_predicate :=
  mkRule ("anc", ["X"; "Y"]) [("par", ["X"; "Y"])].
Definition ancestor_rule1 : @Rule example_predicate :=
  mkRule ("anc", ["X"; "Y"]) [("par", ["X"; "Z"]); ("anc", ["Z"; "Y"])].
Definition ancestor_rules : @Rules example_predicate :=
  mkRules [ancestor_rule0; ancestor_rule1].

(** Three rules of which rule 0 depends on rule 1:
    [a(X) :- b(X).  b(X) :- c(X).  d(X) :- e(X).] *)
Definition chain_rule0 : @Rule example_predicate := mkRule ("a", ["X"]) [("b", ["X"])].
Definition chain_rule1 : @Rule example_predicate := mkRule ("b", ["X"]) [("c", ["X"])].
Definition chain_rule2 : @Rule example_predicate := mkRule ("d", ["X"]) [("e", ["X"])].
Definition chain_rules : @Rules example_predicate :=
  mkRules [chain_rule0; chain_rule1; chain_rule2].

(** Three rules of which rule 0 depends on rule 1 and on itself, and rule 2
    depends on rule 1 too: [a(X) :- b(X), a(X).  b(X) :- c(X).  d(X) :- b(X).] *)
Definition shared_rule0 : @Rule example_predicate :=
  mkRule ("a", ["X"]) [("b", ["X"]); ("a", ["X"])].
Definition shared_rule1 : @Rule example_predicate := mkRule ("b", ["X"]) [("c", ["X"])].
Definition shared_rule2 : @Rule example_predicate := mkRule ("d", ["X"]) [("b", ["X"])].
Definition shared_rules : @Rules example_predicate :=
  mkRules [shared_rule0; shared_rule1; shared_rule2].

(** Five rules with a cycle between rules 0 and 1 and a self-loop on rule 4:
    [p(X) :- q(X).  q(X) :- p(X), r(X).  r(X) :- s(X).  t(X) :- p(X).
     s(X) :- s(X).] *)
Definition mutual_rules : @Rules example_predicate :=
  mkRules [mkRule ("p", ["X"]) [("q", ["X"])];
           mkRule ("q", ["X"]) [("p", ["X"]); ("r", ["X"])];
           mkRule ("r", ["X"]) [("s", ["X"])];
           mkRule ("t", ["X"]) [("p", ["X"])];
           mkRule ("s", ["X"]) [("s", ["X"])]].

(** A store that holds [ancestor_rules] at location 0. *)
Definition ancestor_heap : gmap nat (@Heap.obj example_predicate) :=
  list_to_map
    [(0, Heap.ORules 1); (1, Heap.OList [2; 3]);
     (2, Heap.ORule 4 5); (3, Heap.ORule 6 7);
     (4, Heap.OPredicate ("anc", ["X"; "Y"])); (5, Heap.OList [8]);
     (6, Heap.OPredicate ("anc", ["X"; "Y"])); (7, Heap.OList [9; 10]);
     (8, Heap.OPredicate ("par", ["X"; "Y"]));
     (9, Heap.OPredicate ("par", ["X"; "Z"]));
     (10, Heap.OPredicate ("anc", ["Z"; "Y"]))].

(** A program with two queries, over an interpreter whose parent constructor
    leaves an empty [rdbms] and whose [evaluate_query] answers with the
    query and the number of entries of [rdbms]. *)
Definition example_program : @DatalogProgram example_predicate string unit :=
  mkProgram ancestor_rules ["anc(a,X)?"; "par(X,b)?"] tt.
Definition example_super_init
    (_ : @DatalogProgram example_predicate string unit) (_ : bool)
    : unit * list (string * (string * nat)) := (tt, []).
Definition example_evaluate_query
    (self : @RuleOptimizer example_predicate string (string * nat) unit)
    (query : string) : string * nat := (query, length (rdbms self)).

(** [chain_rules] with other parameters and with a predicate repeated in a
    body: [a(Y) :- b(Y), b(Z).  b(U) :- c(U).  d(V) :- e(V).] *)
Definition chain_rules_renamed : @Rules example_predicate :=
  mkRules [mkRule ("a", ["Y"]) [("b", ["Y"]); ("b", ["Z"])];
           mkRule ("b", ["U"]) [("c", ["U"])];
           mkRule ("d", ["V"]) [("e", ["V"])]].

(** ** Vocabulary of the further properties *)

Section further_vocabulary.
Context {Predicate PredId : Type} `{!EqDecision PredId}.
Context (predicate_id : Predicate → PredId).

(** Specification vocabulary: two rules that agree on the head identity and
    on the set of body identities, whatever the order and the repetitions in
    the bodies and the parameters of the predicates. *)
Definition same_ids (r r' : @Rule Predicate) : Prop :=
  predicate_id (rule_head r) = predicate_id (rule_head r') ∧
  ∀ x, x ∈ predicate_ids predicate_id (rule_predicates r) ↔
       x ∈ predicate_ids predicate_id (rule_predicates r').

(** Specification vocabulary: the vertices of a graph in ascending order of
    their keys. *)
Definition vertices_in_order (g : @DependencyGraph Predicate) : list Vertex :=
  omap (λ i, graph_rules g !! i) (sorted_keys g).

(** Specification vocabulary: the character [c] does not occur in [s]. *)
Definition char_free (c : Ascii.ascii) (s : string) : Prop :=
  c ∉ String.list_ascii_of_string s.

(** Specification vocabulary: the number of line feeds in [s]. *)
Definition count_newlines (s : string) : nat :=
  length (filter (λ x, x = Ascii.ascii_of_nat 10) (String.list_ascii_of_string s)).

End further_vocabulary.

(** ** The report of the optimizer *)

Section optimizer_report.
Context {Predicate Query Relation Attrs : Type} `{!EqDecision Query}.

(** [d.keys()], in insertion order. *)
Definition dict_keys (d : list (Query * Relation)) : list Query := d.*1.

(** Specification vocabulary: the items of [qs] that are not in [seen], each
    at its first occurrence. *)
Fixpoint fresh_queries (seen : list Query) (qs : list Query) : list Query :=
  match qs with
  | [] => []
  | q :: qs' =>
      if decide (q ∈ seen) then fresh_queries seen qs'
      else q :: fresh_queries (seen ++ [q]) qs'
  end.

(** The last loop of [RuleOptimizer.__str__]: [result += results[i]] for the
    indices [i] of [enumerate(self.rdbms.keys())]; a missing index raises
    [KeyError]. *)
Fixpoint str_loop (results : gmap nat string) (indices : list nat)
    (result : string) : option string :=
  match indices with
  | [] => Some result
  | i :: indices' =>
      part ← results !! i; str_loop results indices' (result +:+ part)
  end.

(** [RuleOptimizer.__str__]. Between the two headers and the last loop the
    method starts one process per key of [rdbms], each running the method
    [_str_worker] of the parent class on the index, the key and a shared
    dict, and joins them all; [results] is that dict after the joins. The two
    attributes read by the headers are missing until the constructor has
    assigned them. *)
Definition RuleOptimizer_str
    (self : @RuleOptimizer Predicate Query Relation Attrs)
    (results : gmap nat string) : option string :=
  graph ← dependency_graph self;
  text ← rule_evaluation self;
  let result :=
    "Dependency Graph" +:+ newline +:+ DependencyGraph_str graph +:+ newline in
  let result :=
    result +:+ "Rule Evaluation" +:+ newline +:+ text +:+ newline in
  str_loop results (seq 0 (length (dict_keys (rdbms self)))) result.

End optimizer_report.

(** * Properties *)

(** ** The edge sets computed by the two loops *)

Section graph_facts.
Context {Predicate PredId : Type} `{!EqDecision PredId}.
Context (predicate_id : Predicate → PredId).

Implicit Types (rule r : @Rule Predicate) (rules : @Rules Predicate).
Implicit Types (i j s : nat).

Lemma py_in_spec (x : PredId) l : py_in x l = true ↔ x ∈ l.
Proof. unfold py_in. apply bool_decide_eq_true. Qed.

(** Both loops walk the rules with their index and keep the indices that pass
    a test: the result holds the initial set and index [i + k] when item [k]
    passes. The script is the same for the two tests. *)
Ltac edge_loop_membership :=
  let k := fresh "k" in let r' := fresh "r'" in
  let Hk := fresh "Hk" in let Hr := fresh "Hr" in let Hin := fresh "Hin" in
  match goal with
  | |- ∀ i acc s, _ ∈ ?loop _ ?rule i [] acc ↔ _ =>
      intros i acc s; simpl; split; [by left|];
      intros [?|(k & r' & _ & Hk & _)]; [done|]; by rewrite lookup_nil in Hk
  | IH : (∀ i acc s, _ ∈ ?loop _ ?rule i ?rs acc ↔ _)
    |- ∀ i acc s, _ ∈ ?loop _ ?rule i (?r :: ?rs) acc ↔ _ =>
      intros i acc s; simpl; rewrite IH; destruct (py_in _ _) eqn:Hin;
      [ apply py_in_spec in Hin;
        rewrite elem_of_union, elem_of_singleton; split;
        [ intros [[->|?]|(k & r' & -> & Hk & Hr)];
          [ right; exists 0, r; split; [lia|done]
          | by left
          | right; exists (S k), r'; split; [lia|done] ]
        | intros [?|(k & r' & -> & Hk & Hr)]; [by left; right|];
          destruct k as [|k]; simpl in Hk;
          [ left; left; lia
          | right; exists k, r'; split; [lia|done] ] ]
      | apply not_true_iff_false in Hin; rewrite py_in_spec in Hin; split;
        [ intros [?|(k & r' & -> & Hk & Hr)]; [by left|];
          right; exists (S k), r'; split; [lia|done]
        | intros [?|(k & r' & -> & Hk & Hr)]; [by left|];
          destruct k as [|k]; simpl in Hk;
          [ by simplify_eq
          | right; exists k, r'; split; [lia|done] ] ] ]
  end.

Lemma elem_of_adjacency_loop rule rs : ∀ i adjacent s,
  s ∈ adjacency_loop predicate_id rule i rs adjacent ↔
  s ∈ adjacent ∨
  ∃ k r, s = i + k ∧ rs !! k = Some r ∧ refers_to predicate_id rule r.
Proof. induction rs as [|r rs IH]; edge_loop_membership. Qed.

Lemma elem_of_adjacency rule rules s :
  s ∈ adjacency predicate_id rule rules ↔
  ∃ r, rules_rules rules !! s = Some r ∧ refers_to predicate_id rule r.
Proof.
  unfold adjacency. rewrite elem_of_adjacency_loop. split.
  - intros [?|(k & r & -> & ? & ?)]; [set_solver|]. by exists r.
  - intros (r & ? & ?). right. by exists s, r.
Qed.

Lemma elem_of_reverse_edges_loop rule rs : ∀ i reverse s,
  s ∈ reverse_edges_loop predicate_id rule i rs reverse ↔
  s ∈ reverse ∨
  ∃ k r, s = i + k ∧ rs !! k = Some r ∧ refers_to predicate_id r rule.
Proof. induction rs as [|r rs IH]; edge_loop_membership. Qed.

Lemma elem_of_reverse_edges rule rules s :
  s ∈ reverse_edges predicate_id rule rules ↔
  ∃ r, rules_rules rules !! s = Some r ∧ refers_to predicate_id r rule.
Proof.
  unfold reverse_edges. rewrite elem_of_reverse_edges_loop. split.
  - intros [?|(k & r & -> & ? & ?)]; [set_solver|]. by exists r.
  - intros (r & ? & ?). right. by exists s, r.
Qed.

(** The dict built by the constructor's loop: the old entries below [i],
    and the vertex of [rs !! k] at [i + k]. *)
Lemma DependencyGraph_loop_lookup rules rs : ∀ i d j,
  DependencyGraph_loop predicate_id rules i rs d !! j =
  if decide (i ≤ j < i + length rs)
  then (λ r, Vertex_init predicate_id r j rules) <$> rs !! (j - i)
  else d !! j.
Proof.
  induction rs as [|r rs IH]; intros i d j; simpl.
  - case_decide; [lia|done].
  - rewrite IH. repeat case_decide; try lia.
    + by replace (j - i) with (S (j - S i)) by lia.
    + assert (j = i) as -> by lia.
      by rewrite lookup_insert_eq, Nat.sub_diag.
    + rewrite lookup_insert_ne; [done|lia].
Qed.

Lemma DependencyGraph_lookup rules j :
  graph_rules (DependencyGraph_init predicate_id rules) !! j =
  (λ r, Vertex_init predicate_id r j rules) <$> rules_rules rules !! j.
Proof.
  unfold DependencyGraph_init; simpl. rewrite DependencyGraph_loop_lookup.
  rewrite Nat.sub_0_r. case_decide as Hj; [done|].
  rewrite lookup_empty, lookup_ge_None_2; [done|lia].
Qed.

Lemma DependencyGraph_is_Some rules i :
  is_Some (graph_rules (DependencyGraph_init predicate_id rules) !! i) ↔
  i < length (rules_rules rules).
Proof.
  rewrite DependencyGraph_lookup, fmap_is_Some. apply lookup_lt_is_Some.
Qed.

Lemma DependencyGraph_dom rules :
  dom (graph_rules (DependencyGraph_init predicate_id rules)) =
  set_seq 0 (length (rules_rules rules)).
Proof.
  apply set_eq. intros i.
  rewrite elem_of_dom, DependencyGraph_is_Some, elem_of_set_seq. lia.
Qed.

Lemma Vertex_init_rule rule i rules :
  vertex_rule (Vertex_init predicate_id rule i rules) = rule.
Proof. by destruct rule. Qed.

(** C1. For a rule [r] of the list, [s] is in the forward edge set computed
    for [r] exactly when [s] is the index of a rule whose head identity is
    among the identities of the body predicates of [r]. *)
Theorem adjacency_exact rules r s :
  r ∈ rules_rules rules →
  s ∈ adjacency predicate_id r rules ↔
  ∃ rs, rules_rules rules !! s = Some rs ∧
        predicate_id (rule_head rs) ∈
          predicate_ids predicate_id (rule_predicates r).
Proof. intros _. apply elem_of_adjacency. Qed.

(** C2. In the constructed graph the reverse edge sets are the transpose of
    the forward edge sets: the id of [vj] is a forward edge of [vi] exactly
    when the id of [vi] is a reverse edge of [vj]. *)
Theorem forward_reverse_transpose rules i j vi vj :
  graph_rules (DependencyGraph_init predicate_id rules) !! i = Some vi →
  graph_rules (DependencyGraph_init predicate_id rules) !! j = Some vj →
  vertex_id vj ∈ vertex_edges vi ↔ vertex_id vi ∈ vertex_reverse vj.
Proof.
  rewrite !DependencyGraph_lookup.
  intros (ri & Hi & ->)%fmap_Some (rj & Hj & ->)%fmap_Some; simpl.
  rewrite elem_of_adjacency, elem_of_reverse_edges. split.
  - intros (r & Hr & Href). exists ri. by simplify_eq.
  - intros (r & Hr & Href). exists rj. by simplify_eq.
Qed.

(** C3. The graph of a program with [N] rules has exactly the keys
    [0 .. N-1], the vertex at key [i] carries id [i] and rule [i], every id
    found in a forward or reverse edge set is below [N] and so a key of the
    graph, and a rule whose body names its own head has its own id in both
    of its edge sets. *)
Theorem graph_keys_and_edges rules :
  let g := graph_rules (DependencyGraph_init predicate_id rules) in
  let N := length (rules_rules rules) in
  dom g = set_seq 0 N ∧
  size g = N ∧
  (∀ i, is_Some (g !! i) ↔ i < N) ∧
  (∀ i v, g !! i = Some v →
     vertex_id v = i ∧ rules_rules rules !! i = Some (vertex_rule v)) ∧
  (∀ i v j, g !! i = Some v → j ∈ vertex_edges v ∪ vertex_reverse v →
     j < N ∧ is_Some (g !! j)) ∧
  (∀ i r, rules_rules rules !! i = Some r →
     predicate_id (rule_head r) ∈
       predicate_ids predicate_id (rule_predicates r) →
     ∃ v, g !! i = Some v ∧ i ∈ vertex_edges v ∧ i ∈ vertex_reverse v).
Proof.
  intros g N.
  pose proof (DependencyGraph_is_Some rules) as Hkeys.
  pose proof (DependencyGraph_dom rules) as Hdom. fold g N in Hkeys, Hdom.
  split_and!; [done| |done|..].
  - rewrite <-size_dom, Hdom. apply size_set_seq.
  - intros i v. unfold g. rewrite DependencyGraph_lookup.
    intros (r & Hr & ->)%fmap_Some. by rewrite Vertex_init_rule.
  - intros i v j. unfold g at 1. rewrite DependencyGraph_lookup.
    intros (r & Hr & ->)%fmap_Some; simpl.
    intros Hj. assert (j < N) as HjN.
    { apply elem_of_union in Hj as [Hj|Hj];
        [apply elem_of_adjacency in Hj|apply elem_of_reverse_edges in Hj];
        destruct Hj as (r' & Hj & _); by apply lookup_lt_Some in Hj. }
    split; [done|by apply Hkeys].
  - intros i r Hr Hself. eexists. unfold g.
    rewrite DependencyGraph_lookup, Hr; simpl. split; [done|]. simpl.
    rewrite elem_of_adjacency, elem_of_reverse_edges. split; by exists r.
Qed.

Lemma predicate_ids_without x rule (y : PredId) :
  y ∈ predicate_ids predicate_id
        (rule_predicates (without_predicate predicate_id x rule)) ↔
  y ∈ predicate_ids predicate_id (rule_predicates rule) ∧ y ≠ x.
Proof.
  unfold predicate_ids; simpl. rewrite !list_elem_of_fmap. split.
  - intros (p & -> & [? ?]%list_elem_of_filter). split; [by exists p|done].
  - intros [(p & -> & ?) ?]. exists p. split; [done|].
    by apply list_elem_of_filter.
Qed.

End graph_facts.

(** ** Rendering *)

Section rendering_facts.
Implicit Types (s : gset nat) (i j n : nat).

Lemma sorted_Permutation s : sorted s ≡ₚ elements s.
Proof. apply merge_sort_Permutation. Qed.

Lemma elem_of_sorted s j : j ∈ sorted s ↔ j ∈ s.
Proof. by rewrite sorted_Permutation, elem_of_elements. Qed.

Lemma sorted_NoDup s : NoDup (sorted s).
Proof. rewrite sorted_Permutation. apply NoDup_elements. Qed.

Lemma sorted_le s : StronglySorted Nat.le (sorted s).
Proof. apply StronglySorted_merge_sort; apply _. Qed.

(** [sorted] lists the members of the set in strictly ascending order. *)
Lemma sorted_ascending s : StronglySorted lt (sorted s).
Proof.
  pose proof (sorted_le s) as Hle. pose proof (sorted_NoDup s) as Hnd.
  induction Hle as [|x l _ IH Hx]; [constructor|].
  apply NoDup_cons in Hnd as [Hnin Hnd]. constructor; [by apply IH|].
  apply Forall_forall. intros y Hy.
  rewrite Forall_forall in Hx. specialize (Hx y Hy).
  assert (x ≠ y) by by intros ->. unfold Nat.le in *. lia.
Qed.

Lemma sorted_unique s (l : list nat) :
  StronglySorted lt l → (∀ j, j ∈ l ↔ j ∈ s) → sorted s = l.
Proof.
  intros Hl Hmem.
  apply (StronglySorted_unique_strong lt).
  - intros x1 x2 _ _ ??. lia.
  - apply sorted_ascending.
  - done.
  - apply NoDup_Permutation.
    + apply sorted_NoDup.
    + clear Hmem. induction Hl as [|x l _ IH Hx]; [constructor|].
      apply NoDup_cons. split; [|done].
      intros Hin. rewrite Forall_forall in Hx. specialize (Hx x Hin). lia.
    + intros j. by rewrite elem_of_sorted, Hmem.
Qed.

Lemma StronglySorted_lt_seq i n : StronglySorted lt (seq i n).
Proof.
  revert i. induction n as [|n IH]; intros i; simpl; constructor; [done|].
  apply Forall_forall. intros j Hj%elem_of_seq. lia.
Qed.

Lemma sorted_set_seq n : sorted (set_seq 0 n) = seq 0 n.
Proof.
  apply sorted_unique; [apply StronglySorted_lt_seq|].
  intros j. rewrite elem_of_seq, elem_of_set_seq. lia.
Qed.

Lemma sorted_singleton j : sorted {[ j ]} = [j].
Proof.
  apply sorted_unique; [repeat constructor|].
  intros k. by rewrite list_elem_of_singleton, elem_of_singleton.
Qed.

Lemma omap_ext_elem_of {A B} (f g : A → option B) (l : list A) :
  (∀ x, x ∈ l → f x = g x) → omap f l = omap g l.
Proof.
  induction l as [|a l IH]; intros Hfg; csimpl; [done|].
  rewrite (Hfg a) by left. rewrite IH; [done|].
  intros x Hx. apply Hfg. by right.
Qed.

Lemma omap_lookup_seq {A B} (h : nat → A → B) (l : list A) :
  omap (λ i, h i <$> l !! i) (seq 0 (length l)) = imap h l.
Proof.
  induction l as [|x l IH] using rev_ind; [done|].
  rewrite length_app; simpl. rewrite Nat.add_1_r, seq_S, omap_app, imap_app.
  f_equal.
  - rewrite <-IH. apply omap_ext_elem_of. intros i Hi%elem_of_seq.
    rewrite lookup_app_l; [done|lia].
  - csimpl. rewrite lookup_app_r, Nat.sub_diag by lia. simpl.
    by rewrite Nat.add_0_r.
Qed.

(** *** Characters of the rendering *)

Lemma list_ascii_of_string_app (a b : string) :
  String.list_ascii_of_string (a +:+ b) =
  (String.list_ascii_of_string a ++ String.list_ascii_of_string b)%list.
Proof. induction a as [|c a IH]; simpl; [done|by rewrite IH]. Qed.

Lemma newline_free_app (a b : string) :
  newline_free (a +:+ b) ↔ newline_free a ∧ newline_free b.
Proof.
  unfold newline_free. rewrite list_ascii_of_string_app, not_elem_of_app. done.
Qed.

Lemma pretty_N_char_not_newline (d : N) :
  pretty_N_char d ≠ Ascii.ascii_of_nat 10.
Proof. unfold pretty_N_char. by repeat case_match. Qed.

Lemma newline_free_pretty_N_go (x : N) : ∀ acc : string,
  newline_free acc → newline_free (pretty_N_go x acc).
Proof.
  induction (N.lt_wf_0 x) as [x _ IH]; intros acc Hacc.
  destruct (decide (x = 0)%N) as [->|Hx]; [by rewrite pretty_N_go_0|].
  rewrite pretty_N_go_step by lia. apply IH.
  - apply N.div_lt; lia.
  - unfold newline_free in *; simpl. rewrite not_elem_of_cons. split; [|done].
    intros Heq. by apply (pretty_N_char_not_newline (x `mod` 10)%N).
Qed.

Lemma newline_free_pretty n : newline_free (pretty n).
Proof.
  unfold pretty, pretty_nat, pretty, pretty_N. case_decide.
  - unfold newline_free; simpl. rewrite not_elem_of_cons. split; [done|].
    apply not_elem_of_nil.
  - apply newline_free_pretty_N_go. unfold newline_free; simpl.
    apply not_elem_of_nil.
Qed.

Lemma newline_free_R_format n : newline_free (R_format n).
Proof.
  unfold R_format. apply newline_free_app. split; [|apply newline_free_pretty].
  unfold newline_free; simpl. rewrite not_elem_of_cons. split; [done|].
  apply not_elem_of_nil.
Qed.

Lemma newline_free_join_comma (l : list string) :
  Forall newline_free l → newline_free (join "," l).
Proof.
  unfold join. induction 1 as [|x l Hx Hl IH]; simpl.
  - unfold newline_free; simpl. apply not_elem_of_nil.
  - destruct l as [|y l]; [done|].
    apply newline_free_app. split; [done|].
    apply newline_free_app. split; [|done].
    unfold newline_free; simpl. rewrite not_elem_of_cons. split; [done|].
    apply not_elem_of_nil.
Qed.

Lemma newline_free_line_format i s : newline_free (line_format i s).
Proof.
  unfold line_format.
  repeat (apply newline_free_app; split).
  - unfold newline_free; simpl. rewrite not_elem_of_cons. split; [done|].
    apply not_elem_of_nil.
  - apply newline_free_pretty.
  - unfold newline_free; simpl. rewrite not_elem_of_cons. split; [done|].
    apply not_elem_of_nil.
  - apply newline_free_join_comma, Forall_fmap, Forall_forall.
    intros n _. apply newline_free_R_format.
Qed.

End rendering_facts.

Section listing_facts.
Context {Predicate PredId : Type} `{!EqDecision PredId}.
Context (predicate_id : Predicate → PredId).

Lemma sorted_keys_init (rules : @Rules Predicate) :
  sorted_keys (DependencyGraph_init predicate_id rules) =
  seq 0 (length (rules_rules rules)).
Proof.
  unfold sorted_keys.
  rewrite DependencyGraph_dom. apply sorted_set_seq.
Qed.

Lemma over_sorted_keys_init (f : @Vertex Predicate → string) rules :
  over_sorted_keys f (DependencyGraph_init predicate_id rules) =
  imap (λ i r, f (Vertex_init predicate_id r i rules)) (rules_rules rules).
Proof.
  unfold over_sorted_keys. rewrite sorted_keys_init, <-omap_lookup_seq.
  apply omap_ext_elem_of. intros i _.
  rewrite DependencyGraph_lookup. by destruct (rules_rules rules !! i).
Qed.

Lemma line_format_singleton i j :
  line_format i {[ j ]} = "R" +:+ pretty i +:+ ":R" +:+ pretty j.
Proof. unfold line_format. by rewrite sorted_singleton. Qed.

(** C4. Both listings are the line-feed-terminated join of one line per
    rule id, in ascending id order; line [i] is [R<i>:] followed by the
    comma-joined [R<j>] for the neighbours [j] of vertex [i] in strictly
    ascending order, and holds no line feed itself. When the body of rule 0
    names the head of rule 1, [R1] is among the entries of forward line 0
    and [R0] among those of reverse line 1; when moreover rule 1 is the only
    rule that rule 0 depends on, forward line 0 is [R0:R1], and when rule 0
    is the only rule depending on rule 1, reverse line 1 is [R1:R0]. *)
Theorem listing_format (rules : @Rules Predicate) :
  let g := DependencyGraph_init predicate_id rules in
  let N := length (rules_rules rules) in
  let fwd := over_sorted_keys Vertex_str g in
  let rev :=
    over_sorted_keys (λ v, line_format (vertex_id v) (vertex_reverse v)) g in
  DependencyGraph_str g = join newline fwd +:+ newline ∧
  DependencyGraph_reverse g = join newline rev +:+ newline ∧
  length fwd = N ∧ length rev = N ∧
  (∀ i, i < N → ∃ v, graph_rules g !! i = Some v ∧
     fwd !! i = Some (line_format i (vertex_edges v)) ∧
     rev !! i = Some (line_format i (vertex_reverse v))) ∧
  Forall newline_free fwd ∧ Forall newline_free rev ∧
  (∀ i (s : gset nat), ∃ l : list nat,
     line_format i s =
       "R" +:+ pretty i +:+ ":" +:+ join "," ((λ j, "R" +:+ pretty j) <$> l) ∧
     StronglySorted lt l ∧ ∀ j, j ∈ l ↔ j ∈ s) ∧
  (∀ r0 r1,
     rules_rules rules !! 0 = Some r0 → rules_rules rules !! 1 = Some r1 →
     predicate_id (rule_head r1) ∈
       predicate_ids predicate_id (rule_predicates r0) →
     (∃ l, fwd !! 0 = Some ("R0:" +:+ join "," (R_format <$> l)) ∧ 1 ∈ l) ∧
     (∃ l, rev !! 1 = Some ("R1:" +:+ join "," (R_format <$> l)) ∧ 0 ∈ l) ∧
     ((∀ k r, rules_rules rules !! k = Some r →
         predicate_id (rule_head r) ∈
           predicate_ids predicate_id (rule_predicates r0) → k = 1) →
      fwd !! 0 = Some "R0:R1") ∧
     ((∀ k r, rules_rules rules !! k = Some r →
         predicate_id (rule_head r1) ∈
           predicate_ids predicate_id (rule_predicates r) → k = 0) →
      rev !! 1 = Some "R1:R0")).
Proof.
  intros g N fwd rev. unfold fwd, rev, g.
  rewrite !over_sorted_keys_init. split_and!.
  - unfold DependencyGraph_str. by rewrite over_sorted_keys_init.
  - unfold DependencyGraph_reverse. by rewrite over_sorted_keys_init.
  - apply length_imap.
  - apply length_imap.
  - intros i Hi. destruct (lookup_lt_is_Some_2 _ _ Hi) as [r Hr].
    exists (Vertex_init predicate_id r i rules).
    by rewrite DependencyGraph_lookup, !list_lookup_imap, Hr.
  - apply Forall_forall. intros x (i & r & -> & _)%elem_of_lookup_imap_1.
    apply newline_free_line_format.
  - apply Forall_forall. intros x (i & r & -> & _)%elem_of_lookup_imap_1.
    apply newline_free_line_format.
  - intros i s. exists (sorted s). split_and!; [done|..].
    + apply sorted_ascending.
    + apply elem_of_sorted.
  - intros r0 r1 H0 H1 Href. rewrite !list_lookup_imap, H0, H1; simpl.
    split_and!.
    + exists (sorted (adjacency predicate_id r0 rules)). split; [done|].
      apply elem_of_sorted, elem_of_adjacency. by exists r1.
    + exists (sorted (reverse_edges predicate_id r1 rules)). split; [done|].
      apply elem_of_sorted, elem_of_reverse_edges. by exists r0.
    + intros Honly. unfold Vertex_str; simpl.
      assert (adjacency predicate_id r0 rules = {[ 1 ]}) as ->.
      { apply set_eq. intros k. rewrite elem_of_adjacency, elem_of_singleton.
        split; [intros (r & ? & ?); by eapply Honly|].
        intros ->. by exists r1. }
      by rewrite line_format_singleton.
    + intros Honly.
      assert (reverse_edges predicate_id r1 rules = {[ 0 ]}) as ->.
      { apply set_eq. intros k.
        rewrite elem_of_reverse_edges, elem_of_singleton.
        split; [intros (r & ? & ?); by eapply Honly|].
        intros ->. by exists r0. }
      by rewrite line_format_singleton.
Qed.

End listing_facts.

(** ** The constructor of the optimizer *)

Section optimizer_facts.
Context {Predicate PredId : Type} `{!EqDecision PredId}.
Context (predicate_id : Predicate → PredId).
Context {Query Relation Other Attrs : Type} `{!EqDecision Query}.
Context (DatalogInterpreter_init :
  @DatalogProgram Predicate Query Other → bool → Attrs * list (Query * Relation)).
Context (evaluate_query :
  @RuleOptimizer Predicate Query Relation Attrs → Query → Relation).


Implicit Types (st : @run Predicate Query Relation Attrs).
Implicit Types (qs : list Query) (q : Query) (d : list (Query * Relation)).

Lemma dict_get_set_eq d q v : dict_get (dict_set d q v) q = Some v.
Proof.
  induction d as [|[k' v'] d IH]; simpl.
  - by rewrite decide_True.
  - destruct (decide (k' = q)) as [->|Hne]; simpl.
    + by rewrite decide_True.
    + by rewrite decide_False.
Qed.

Lemma dict_get_set_ne d q q' v :
  q ≠ q' → dict_get (dict_set d q v) q' = dict_get d q'.
Proof.
  intros Hne. induction d as [|[k' v'] d IH]; simpl.
  - by rewrite decide_False.
  - destruct (decide (k' = q)) as [->|Hne']; simpl.
    + by rewrite !decide_False.
    + by rewrite IH.
Qed.

Lemma query_loop_app st qs1 qs2 :
  query_loop evaluate_query st (qs1 ++ qs2) =
  query_loop evaluate_query (query_loop evaluate_query st qs1) qs2.
Proof. revert st. induction qs1 as [|q qs1 IH]; intros st; simpl; [done|apply IH]. Qed.

Lemma query_loop_snoc st qs q :
  query_loop evaluate_query st (qs ++ [q]) =
  query_step evaluate_query (query_loop evaluate_query st qs) q.
Proof. by rewrite query_loop_app. Qed.

Lemma trace_query_loop st qs :
  trace (query_loop evaluate_query st qs) =
  trace st ++ (call_evaluate_query <$> qs).
Proof.
  revert st. induction qs as [|q qs IH]; intros st; simpl.
  - by rewrite app_nil_r.
  - rewrite IH; simpl. by rewrite <-app_assoc.
Qed.

Lemma rule_evaluation_query_loop st qs :
  rule_evaluation (object (query_loop evaluate_query st qs)) =
  rule_evaluation (object st).
Proof. revert st. induction qs as [|q qs IH]; intros st; simpl; [done|by rewrite IH]. Qed.

Lemma dependency_graph_query_loop st qs :
  dependency_graph (object (query_loop evaluate_query st qs)) =
  dependency_graph (object st).
Proof. revert st. induction qs as [|q qs IH]; intros st; simpl; [done|by rewrite IH]. Qed.

Lemma attrs_query_loop st qs :
  attrs (object (query_loop evaluate_query st qs)) = attrs (object st).
Proof. revert st. induction qs as [|q qs IH]; intros st; simpl; [done|by rewrite IH]. Qed.

(** A key that is not one of the queries keeps its entry through the loop. *)
Lemma dict_get_query_loop_other st qs q :
  q ∉ qs →
  dict_get (rdbms (object (query_loop evaluate_query st qs))) q =
  dict_get (rdbms (object st)) q.
Proof.
  revert st. induction qs as [|q' qs IH]; intros st Hq; simpl; [done|].
  apply not_elem_of_cons in Hq as [Hne Hq].
  rewrite IH by done. simpl. by apply dict_get_set_ne.
Qed.

Lemma before_queries_trace program :
  trace (before_queries predicate_id DatalogInterpreter_init program) =
  [call_super_init false; call_DependencyGraph; call_evaluate_optimized_rules].
Proof. unfold before_queries. by destruct (DatalogInterpreter_init _ _). Qed.

Lemma before_queries_rule_evaluation program :
  rule_evaluation
    (object (before_queries predicate_id DatalogInterpreter_init program)) =
  Some "".
Proof. unfold before_queries. by destruct (DatalogInterpreter_init _ _). Qed.

(** When the loop over the queries is entered, [rdbms] and the inherited
    attributes are what the parent constructor, called with
    [least_fix_point=False], left: the graph construction and
    [evaluate_optimized_rules] touch neither. *)
Lemma before_queries_store program :
  let self :=
    object (before_queries predicate_id DatalogInterpreter_init program) in
  (attrs self, rdbms self) = DatalogInterpreter_init program false ∧
  dependency_graph self =
    Some (DependencyGraph_init predicate_id (program_rules program)).
Proof. unfold before_queries. by destruct (DatalogInterpreter_init _ _). Qed.

(** Whatever the parent constructor left, the optimizer adds to it nothing
    but the results of the queries: when item [k] of the queries is
    evaluated, the inherited attributes are those the parent constructor,
    called with [least_fix_point=False], returned, and so is every entry of
    [rdbms] whose key is not one of the earlier queries. *)
Lemma optimizer_adds_only_query_results program k :
  let parent := DatalogInterpreter_init program false in
  let self :=
    at_query predicate_id DatalogInterpreter_init evaluate_query program k in
  attrs self = parent.1 ∧
  ∀ q, q ∉ take k (program_queries program) →
       dict_get (rdbms self) q = dict_get parent.2 q.
Proof.
  intros parent self. unfold self, at_query.
  destruct (before_queries_store program) as [Hparent _].
  fold parent in Hparent. split.
  - rewrite attrs_query_loop. by rewrite <-Hparent.
  - intros q Hq. rewrite dict_get_query_loop_other by done.
    by rewrite <-Hparent.
Qed.

Lemma count_query_events qs q :
  length (filter (λ e : @event Query, e = call_evaluate_query q)
            (call_evaluate_query <$> qs)) =
  length (filter (λ q', q' = q) qs).
Proof.
  induction qs as [|q' qs IH]; [done|].
  rewrite fmap_cons, !filter_cons.
  destruct (decide (q' = q)) as [->|Hne].
  - rewrite decide_True by done. simpl. by rewrite IH.
  - rewrite decide_False by (by intros [=]). done.
Qed.

Lemma filter_query_events qs :
  filter (λ e : @event Query, is_query_event e = true)
    (call_evaluate_query <$> qs) = call_evaluate_query <$> qs.
Proof.
  induction qs as [|q qs IH]; [done|].
  rewrite fmap_cons, filter_cons_True by done. by rewrite IH.
Qed.

(** C5. [evaluate_optimized_rules] returns the empty string whatever the
    object and the graph, and that is the [rule_evaluation] of every
    constructed optimizer. *)
Theorem evaluate_optimized_rules_empty :
  (∀ (self : @RuleOptimizer Predicate Query Relation Attrs) order,
     evaluate_optimized_rules self order = "") ∧
  (∀ program,
     rule_evaluation
       (object (RuleOptimizer_init predicate_id DatalogInterpreter_init
                  evaluate_query program)) = Some "").
Proof.
  split; [done|]. intros program. unfold RuleOptimizer_init.
  by rewrite rule_evaluation_query_loop, before_queries_rule_evaluation.
Qed.

(** C7. The constructor calls [evaluate_query] once for each item of the
    query sequence, in order, and for nothing else; each of these calls comes
    after the call of [evaluate_optimized_rules]; the result of the call for
    item [k] is stored in [rdbms] under that query, where it is found when
    the next item is evaluated and, unless a later item is the same query,
    when the constructor returns. *)
Theorem queries_evaluated_once_after_rules program :
  let r := RuleOptimizer_init predicate_id DatalogInterpreter_init
             evaluate_query program in
  let qs := program_queries program in
  let self_at :=
    at_query predicate_id DatalogInterpreter_init evaluate_query program in
  trace r = [call_super_init false; call_DependencyGraph;
             call_evaluate_optimized_rules] ++ (call_evaluate_query <$> qs) ∧
  filter (λ e, is_query_event e = true) (trace r) = call_evaluate_query <$> qs ∧
  (∀ q, length (filter (λ e, e = call_evaluate_query q) (trace r)) =
        length (filter (λ q', q' = q) qs)) ∧
  (NoDup qs → ∀ q, q ∈ qs →
     length (filter (λ e, e = call_evaluate_query q) (trace r)) = 1) ∧
  (∀ pre q post, trace r = pre ++ call_evaluate_query q :: post →
     call_evaluate_optimized_rules ∈ pre) ∧
  (∀ k q, qs !! k = Some q →
     dict_get (rdbms (self_at (S k))) q = Some (evaluate_query (self_at k) q)) ∧
  (∀ k q, qs !! k = Some q → (∀ k', k < k' → qs !! k' ≠ Some q) →
     dict_get (rdbms (object r)) q = Some (evaluate_query (self_at k) q)).
Proof.
  intros r qs self_at. unfold self_at.
  assert (trace r = [call_super_init false; call_DependencyGraph;
             call_evaluate_optimized_rules] ++ (call_evaluate_query <$> qs))
    as Htrace.
  { unfold r, RuleOptimizer_init.
    by rewrite trace_query_loop, before_queries_trace. }
  assert (∀ q, length (filter (λ e, e = call_evaluate_query q) (trace r)) =
               length (filter (λ q', q' = q) qs)) as Hcount.
  { intros q. rewrite Htrace, filter_app, length_app.
    rewrite !filter_cons_False, filter_nil by done. simpl.
    apply count_query_events. }
  assert (∀ k q, qs !! k = Some q →
     at_query predicate_id DatalogInterpreter_init evaluate_query program (S k) =
     object (query_step evaluate_query
               (query_loop evaluate_query
                  (before_queries predicate_id DatalogInterpreter_init program)
                  (take k qs)) q))
    as Hnext.
  { intros k q Hk. unfold at_query. fold qs.
    by rewrite (take_S_r _ _ _ Hk), query_loop_snoc. }
  split_and!; [done| |done| | | |].
  - rewrite Htrace, filter_app.
    rewrite !filter_cons_False, filter_nil by done. simpl.
    apply filter_query_events.
  - intros Hnd q Hq. rewrite Hcount. clear -Hnd Hq.
    induction Hnd as [|q' qs' Hnin Hnd IH]; [by apply elem_of_nil in Hq|].
    destruct (decide (q' = q)) as [->|Hne].
    + rewrite filter_cons_True by done. simpl. f_equal.
      apply length_zero_iff_nil. clear -Hnin.
      induction qs' as [|x qs' IH]; [done|].
      apply not_elem_of_cons in Hnin as [Hne Hnin].
      rewrite filter_cons_False by done. by apply IH.
    + rewrite filter_cons_False by done.
      apply IH. apply elem_of_cons in Hq as [->|Hq]; done.
  - intros pre q post. rewrite Htrace.
    destruct pre as [|e1 [|e2 [|e3 pre]]]; simpl; intros Heq; simplify_eq.
    set_solver.
  - intros k q Hk. rewrite (Hnext k q Hk). simpl. apply dict_get_set_eq.
  - intros k q Hk Hlast. unfold r, RuleOptimizer_init. fold qs.
    rewrite <-(take_drop_middle qs k q Hk) at 1.
    rewrite query_loop_app. simpl. rewrite dict_get_query_loop_other.
    + simpl. apply dict_get_set_eq.
    + intros (j & Hj)%list_elem_of_lookup_1. rewrite lookup_drop in Hj.
      by apply (Hlast (S k + j)); [lia|].
Qed.

End optimizer_facts.

(** ** The constructors over a store of objects *)

Module HeapFacts.
Section heap_facts.
Context {Predicate PredId : Type} `{!EqDecision PredId}.
Context (predicate_id : Predicate → PredId).

Implicit Types (h : gmap nat (@Heap.obj Predicate)) (d : gmap nat nat).
Implicit Types (r : @Rule Predicate) (rules : @Rules Predicate).

(** *** Nothing that exists is written *)

Lemma Vertex_init_frame h rule i o v h' :
  Heap.Vertex_init predicate_id h rule i o = Some (v, h') →
  h ⊆ h' ∧ h !! v = None.
Proof.
  unfold Heap.Vertex_init. intros Hv. simplify_option_eq.
  assert (h !! fresh (dom h) = None) as Hfresh
    by apply not_elem_of_dom, is_fresh.
  split; [by apply insert_subseteq|done].
Qed.

Lemma DependencyGraph_loop_frame o rs : ∀ h i d d' h',
  Heap.DependencyGraph_loop predicate_id h o i rs d = Some (d', h') →
  h ⊆ h' ∧ ∀ j v, d' !! j = Some v → d !! j = Some v ∨ h !! v = None.
Proof.
  induction rs as [|rule rs IH]; intros h i d d' h'; simpl.
  - intros [= -> ->]. split; [done|]. intros j v ?. by left.
  - destruct (Heap.Vertex_init _ _ _ _ _) as [[v h1]|] eqn:Hv; [|done]; simpl.
    intros Hloop. apply Vertex_init_frame in Hv as [Hsub Hnew].
    apply IH in Hloop as [Hsub' Hd]. split; [by etrans|].
    intros j w Hw. destruct (Hd j w Hw) as [Hin|Hnone].
    + destruct (decide (i = j)) as [->|Hne].
      * rewrite lookup_insert_eq in Hin. simplify_eq. by right.
      * rewrite lookup_insert_ne in Hin by done. by left.
    + right. by eapply lookup_weaken_None.
Qed.

(** *** A larger store holds what the smaller one holds *)

Lemma repr_predicates_mono h h' o ps :
  h ⊆ h' → Heap.repr_predicates h o ps → Heap.repr_predicates h' o ps.
Proof.
  intros Hsub (items & Ho & Hitems). exists items. split.
  - by eapply lookup_weaken.
  - eapply Forall2_impl; [done|]. intros l p Hl.
    exact (lookup_weaken _ _ _ _ Hl Hsub).
Qed.

Lemma repr_rule_mono h h' o r :
  h ⊆ h' → Heap.repr_rule h o r → Heap.repr_rule h' o r.
Proof.
  intros Hsub (hd & ps & Ho & Hhd & Hps). exists hd, ps.
  split_and!; [by eapply lookup_weaken..|by eapply repr_predicates_mono].
Qed.

Lemma repr_rules_mono h h' o rules :
  h ⊆ h' → Heap.repr_rules h o rules → Heap.repr_rules h' o rules.
Proof.
  intros Hsub (lst & rs & Ho & Hlst & Hrs). exists lst, rs.
  split_and!; [by eapply lookup_weaken..|].
  eapply Forall2_impl; [done|]. intros ???. by eapply repr_rule_mono.
Qed.

Lemma repr_vertex_mono h h' o v :
  h ⊆ h' → Heap.repr_vertex h o v → Heap.repr_vertex h' o v.
Proof.
  intros Hsub (hd & ps & Ho & Hhd & Hps). exists hd, ps.
  split_and!; [by eapply lookup_weaken..|by eapply repr_predicates_mono].
Qed.

(** *** Reading a store that holds the rules gives the values *)

Lemma head_id_repr h o r :
  Heap.repr_rule h o r →
  Heap.head_id predicate_id h o = Some (predicate_id (rule_head r)).
Proof.
  intros (hd & ps & Ho & Hhd & _).
  unfold Heap.head_id, Heap.get_head, Heap.get_id. rewrite Ho; simpl.
  by rewrite Hhd.
Qed.

Lemma body_ids_repr h o r :
  Heap.repr_rule h o r →
  Heap.body_ids predicate_id h o =
  Some (predicate_ids predicate_id (rule_predicates r)).
Proof.
  intros (hd & ps & Ho & _ & items & Hps & Hitems).
  unfold Heap.body_ids, Heap.get_predicates, Heap.get_items.
  rewrite Ho; simpl. rewrite Hps; simpl.
  apply mapM_Some, Forall2_fmap_r.
  eapply Forall2_impl; [done|]. intros l p Hl.
  unfold Heap.get_id. by rewrite Hl.
Qed.

Lemma adjacency_loop_repr h o r rs (rl : list (@Rule Predicate)) :
  Heap.repr_rule h o r → Forall2 (Heap.repr_rule h) rs rl →
  ∀ i adjacent,
    Heap.adjacency_loop predicate_id h o i rs adjacent =
    Some (adjacency_loop predicate_id r i rl adjacent).
Proof.
  intros Hr Hrs. induction Hrs as [|o' r' rs rl Hr' _ IH]; intros i adjacent;
    simpl; [done|].
  rewrite (head_id_repr _ _ _ Hr'); simpl.
  rewrite (body_ids_repr _ _ _ Hr); simpl. apply IH.
Qed.

Lemma reverse_edges_loop_repr h o r rs (rl : list (@Rule Predicate)) :
  Heap.repr_rule h o r → Forall2 (Heap.repr_rule h) rs rl →
  ∀ i reverse,
    Heap.reverse_edges_loop predicate_id h o i rs reverse =
    Some (reverse_edges_loop predicate_id r i rl reverse).
Proof.
  intros Hr Hrs. induction Hrs as [|o' r' rs rl Hr' _ IH]; intros i reverse;
    simpl; [done|].
  rewrite (head_id_repr _ _ _ Hr); simpl.
  rewrite (body_ids_repr _ _ _ Hr'); simpl. apply IH.
Qed.

Lemma Vertex_init_repr h rule r i o rules :
  Heap.repr_rules h o rules → Heap.repr_rule h rule r →
  ∃ v h', Heap.Vertex_init predicate_id h rule i o = Some (v, h') ∧
          Heap.repr_vertex h' v (Vertex_init predicate_id r i rules).
Proof.
  intros (lst & rs & Ho & Hlst & Hrs) Hr.
  pose proof Hr as (hd & ps & Hrule & Hhd & Hps).
  assert (h !! fresh (dom h) = None) as Hfresh
    by apply not_elem_of_dom, is_fresh.
  eexists _, _. split.
  - unfold Heap.Vertex_init, Heap.adjacency, Heap.reverse_edges.
    unfold Heap.get_head, Heap.get_predicates, Heap.get_rules, Heap.get_items.
    rewrite Hrule, Ho; simpl. rewrite Hlst; simpl.
    rewrite (adjacency_loop_repr _ _ _ _ _ Hr Hrs); simpl.
    rewrite (reverse_edges_loop_repr _ _ _ _ _ Hr Hrs); simpl. done.
  - exists hd, ps. simpl. split_and!.
    + by rewrite lookup_insert_eq.
    + eapply lookup_weaken; [done|by apply insert_subseteq].
    + eapply repr_predicates_mono; [by apply insert_subseteq|done].
Qed.

Lemma DependencyGraph_loop_repr o rules rs (rl : list (@Rule Predicate)) :
  ∀ h i d (g : gmap nat (@Vertex Predicate)),
    Heap.repr_rules h o rules → Forall2 (Heap.repr_rule h) rs rl →
    Heap.repr_graph h d g →
    ∃ d' h', Heap.DependencyGraph_loop predicate_id h o i rs d = Some (d', h') ∧
             Heap.repr_graph h' d' (DependencyGraph_loop predicate_id rules i rl g).
Proof.
  revert rl. induction rs as [|rule rs IH]; intros rl h i d g Hrules Hrs Hg.
  - apply Forall2_nil_inv_l in Hrs as ->. by exists d, h.
  - apply Forall2_cons_inv_l in Hrs as (r & rl' & Hr & Hrs & ->). simpl.
    destruct (Vertex_init_repr h rule r i o rules Hrules Hr)
      as (v & h1 & Hv & Hrepr).
    rewrite Hv; simpl. apply Vertex_init_frame in Hv as [Hsub _].
    apply IH.
    + by eapply repr_rules_mono.
    + eapply Forall2_impl; [done|]. intros ???. by eapply repr_rule_mono.
    + intros j. destruct (decide (i = j)) as [->|Hne].
      * rewrite !lookup_insert_eq. by constructor.
      * rewrite !lookup_insert_ne by done.
        specialize (Hg j). destruct Hg; constructor.
        by eapply repr_vertex_mono.
Qed.

Lemma DependencyGraph_init_repr h o rules :
  Heap.repr_rules h o rules →
  ∃ d h', Heap.DependencyGraph_init predicate_id h o = Some (d, h') ∧
          Heap.repr_graph h' d
            (graph_rules (DependencyGraph_init predicate_id rules)).
Proof.
  intros Hrules. pose proof Hrules as (lst & rs & Ho & Hlst & Hrs).
  unfold Heap.DependencyGraph_init, Heap.get_rules, Heap.get_items.
  rewrite Ho; simpl. rewrite Hlst; simpl.
  apply DependencyGraph_loop_repr; [done..|].
  intros i. rewrite !lookup_empty. constructor.
Qed.

(** C9. Building the graph writes to no object that existed before: every
    location of the old store holds the same object afterwards, and the
    vertices sit at locations that were free. So a store that held the rule
    list [rules] (each rule with its head and its body predicates, in the
    order of the list) still holds exactly that list; on such a store the
    construction does return, and the vertices it leaves are those of the
    graph computed from the values. *)
Theorem construction_leaves_rules h o :
  (∀ d h', Heap.DependencyGraph_init predicate_id h o = Some (d, h') →
     (∀ l x, h !! l = Some x → h' !! l = Some x) ∧
     (∀ i v, d !! i = Some v → h !! v = None)) ∧
  (∀ rules, Heap.repr_rules h o rules →
     ∃ d h', Heap.DependencyGraph_init predicate_id h o = Some (d, h') ∧
             Heap.repr_rules h' o rules ∧
             Heap.repr_graph h' d
               (graph_rules (DependencyGraph_init predicate_id rules))).
Proof.
  assert (∀ d h', Heap.DependencyGraph_init predicate_id h o = Some (d, h') →
            h ⊆ h' ∧ ∀ i v, d !! i = Some v → h !! v = None) as Hframe.
  { intros d h'. unfold Heap.DependencyGraph_init. intros Hinit.
    simplify_option_eq.
    match goal with H : Heap.DependencyGraph_loop _ _ _ _ _ _ = _ |- _ =>
      apply DependencyGraph_loop_frame in H as [Hsub Hd] end.
    split; [done|]. intros i v Hv.
    destruct (Hd i v Hv) as [Hempty|?]; [|done].
    by rewrite lookup_empty in Hempty. }
  split.
  - intros d h' Hinit. destruct (Hframe d h' Hinit) as [Hsub Hnew].
    split; [|done]. intros l x Hl. by eapply lookup_weaken.
  - intros rules Hrules.
    destruct (DependencyGraph_init_repr h o rules Hrules) as (d & h' & Hinit & Hg).
    exists d, h'. split_and!; [done| |done].
    destruct (Hframe d h' Hinit) as [Hsub _]. by eapply repr_rules_mono.
Qed.

End heap_facts.
End HeapFacts.

(** ** Predicates that no rule defines *)

Section base_predicates.
Context {Predicate PredId : Type} `{!EqDecision PredId}.
Context (predicate_id : Predicate → PredId).

Implicit Types (rule r : @Rule Predicate) (rules : @Rules Predicate).

(** C8. Let the body of rule [i] contain a predicate [p] whose identity is
    the head identity of no rule. The graph is built all the same: it has a
    vertex for every rule, and on every store that holds the rules the
    construction returns. No forward edge of rule [i] leads to a rule
    defining [p], and striking [p] out of that body changes no forward and no
    reverse edge set of any vertex. *)
Theorem base_predicate_no_edge rules i r p :
  rules_rules rules !! i = Some r →
  p ∈ rule_predicates r →
  (∀ q : Rule, q ∈ rules_rules rules →
        predicate_id (rule_head q) ≠ predicate_id p) →
  let g := graph_rules (DependencyGraph_init predicate_id rules) in
  let rules' :=
    mkRules (<[ i := without_predicate predicate_id (predicate_id p) r ]>
               (rules_rules rules)) in
  let g' := graph_rules (DependencyGraph_init predicate_id rules') in
  (∀ j, j < length (rules_rules rules) → is_Some (g !! j)) ∧
  (∀ h o, Heap.repr_rules h o rules →
     is_Some (Heap.DependencyGraph_init predicate_id h o)) ∧
  (∀ v s rs, g !! i = Some v → s ∈ vertex_edges v →
     rules_rules rules !! s = Some rs →
     predicate_id (rule_head rs) ≠ predicate_id p) ∧
  (∀ j, vertex_edges <$> g !! j = vertex_edges <$> g' !! j) ∧
  (∀ j, vertex_reverse <$> g !! j = vertex_reverse <$> g' !! j).
Proof.
  intros Hi Hp Hbase g rules' g'.
  assert (∀ a b, refers_to predicate_id
                   (without_predicate predicate_id (predicate_id p) a) b ↔
                 refers_to predicate_id a b ∧
                 predicate_id (rule_head b) ≠ predicate_id p) as Hwo.
  { intros a b. unfold refers_to. apply predicate_ids_without. }
  assert (∀ k a, rules_rules rules' !! k = Some a →
            ∃ a0, rules_rules rules !! k = Some a0 ∧
                  rule_head a = rule_head a0 ∧
                  ∀ b, b ∈ rules_rules rules →
                    (refers_to predicate_id a b ↔ refers_to predicate_id a0 b))
    as Hfrom.
  { intros k a. simpl. destruct (decide (k = i)) as [->|Hne].
    - rewrite list_lookup_insert_eq by by eapply lookup_lt_Some.
      intros [= <-]. exists r. split_and!; [done..|].
      intros b Hb. rewrite Hwo. specialize (Hbase b Hb). tauto.
    - rewrite list_lookup_insert_ne by done. intros ?. by exists a. }
  assert (∀ k a0, rules_rules rules !! k = Some a0 →
            ∃ a, rules_rules rules' !! k = Some a ∧
                  rule_head a = rule_head a0 ∧
                  ∀ b, b ∈ rules_rules rules →
                    (refers_to predicate_id a b ↔ refers_to predicate_id a0 b))
    as Hto.
  { intros k a0 Hk. simpl. destruct (decide (k = i)) as [->|Hne].
    - rewrite list_lookup_insert_eq by by eapply lookup_lt_Some.
      eexists; split; [done|]. simplify_eq. split; [done|].
      intros b Hb. rewrite Hwo. specialize (Hbase b Hb). tauto.
    - rewrite list_lookup_insert_ne by done. by exists a0. }
  assert (∀ a b, rule_head a = rule_head b →
            ∀ c, refers_to predicate_id c a ↔ refers_to predicate_id c b)
    as Hhead.
  { intros a b Hab c. unfold refers_to. by rewrite Hab. }
  split_and!.
  - intros j Hj. unfold g. rewrite DependencyGraph_lookup, fmap_is_Some.
    by apply lookup_lt_is_Some.
  - intros h o Hrepr.
    destruct (HeapFacts.DependencyGraph_init_repr predicate_id h o rules Hrepr)
      as (d & h' & -> & _). by eexists.
  - intros v s rs Hv _ Hs. apply Hbase. by eapply list_elem_of_lookup_2.
  - intros j. unfold g, g'. rewrite !DependencyGraph_lookup, <-!option_fmap_compose.
    destruct (rules_rules rules !! j) as [a0|] eqn:Hj.
    + destruct (Hto _ _ Hj) as (a & -> & Hh & Hrefs); simpl. f_equal.
      apply set_eq. intros s. rewrite !elem_of_adjacency. split.
      * intros (b0 & Hs & Href). destruct (Hto _ _ Hs) as (b & Hs' & Hb & _).
        exists b. split; [done|].
        apply (Hhead _ _ Hb), Hrefs; [by eapply list_elem_of_lookup_2|done].
      * intros (b & Hs & Href). destruct (Hfrom _ _ Hs) as (b0 & Hs' & Hb & _).
        exists b0. split; [done|].
        apply Hrefs; [by eapply list_elem_of_lookup_2|].
        by apply (Hhead _ _ Hb).
    + assert (rules_rules rules' !! j = None) as ->; [|done].
      simpl. apply lookup_ge_None. rewrite length_insert.
      by apply lookup_ge_None.
  - intros j. unfold g, g'. rewrite !DependencyGraph_lookup, <-!option_fmap_compose.
    destruct (rules_rules rules !! j) as [a0|] eqn:Hj.
    + destruct (Hto _ _ Hj) as (a & -> & Hh & _); simpl. f_equal.
      apply set_eq. intros s. rewrite !elem_of_reverse_edges.
      assert (a0 ∈ rules_rules rules) as Ha0 by by eapply list_elem_of_lookup_2.
      split.
      * intros (b0 & Hs & Href). destruct (Hto _ _ Hs) as (b & Hs' & _ & Hrefs).
        exists b. split; [done|].
        apply (Hhead _ _ Hh). by apply Hrefs.
      * intros (b & Hs & Href). destruct (Hfrom _ _ Hs) as (b0 & Hs' & _ & Hrefs).
        exists b0. split; [done|].
        apply Hrefs; [done|]. by apply (Hhead _ _ Hh).
    + assert (rules_rules rules' !! j = None) as ->; [|done].
      simpl. apply lookup_ge_None. rewrite length_insert.
      by apply lookup_ge_None.
Qed.

End base_predicates.

(** ** Stratification *)

Section closure_facts.
Context (next : nat → gset nat) (K : gset nat).
Hypothesis next_in_K : ∀ x, x ∈ K → next x ⊆ K.

Implicit Types (X Y : gset nat) (x y : nat).

Lemma elem_of_expand X y :
  y ∈ expand next X ↔ y ∈ X ∨ ∃ x, x ∈ X ∧ y ∈ next x.
Proof.
  unfold expand. by rewrite elem_of_union, elem_of_set_bind.
Qed.

Lemma expand_subseteq X : X ⊆ expand next X.
Proof. intros y ?. apply elem_of_expand. by left. Qed.

Lemma expand_in X : X ⊆ K → expand next X ⊆ K.
Proof.
  intros HX y [?|(x & Hx & Hy)]%elem_of_expand; [by apply HX|].
  by apply (next_in_K x); [apply HX|].
Qed.

Lemma closure_subseteq n : ∀ X, X ⊆ closure next n X.
Proof.
  induction n as [|n IH]; intros X; simpl; [done|].
  etrans; [apply expand_subseteq|apply IH].
Qed.

Lemma closure_in n : ∀ X, X ⊆ K → closure next n X ⊆ K.
Proof.
  induction n as [|n IH]; intros X HX; simpl; [done|].
  by apply IH, expand_in.
Qed.

Lemma closure_fixed n X : expand next X = X → closure next n X = X.
Proof. intros HX. induction n as [|n IH]; simpl; [done|]. by rewrite HX. Qed.

(** A search that has not settled after [n] rounds has found [n] new
    members. *)
Lemma closure_grows n : ∀ X,
  expand next (closure next n X) = closure next n X ∨
  n + size X ≤ size (closure next n X).
Proof.
  induction n as [|n IH]; intros X; simpl; [right; lia|].
  destruct (decide (expand next X = X)) as [Hfix|Hne].
  - left. by rewrite Hfix, closure_fixed.
  - destruct (IH (expand next X)) as [?|Hsize]; [by left|right].
    assert (X ⊂ expand next X) as Hlt%subset_size; [|lia].
    split; [apply expand_subseteq|].
    intros Hsub. apply Hne. apply set_eq. intros y. split; [apply Hsub|].
    apply expand_subseteq.
Qed.

Lemma closure_settled n X :
  X ⊆ K → size K < n + size X →
  expand next (closure next n X) = closure next n X.
Proof.
  intros HX Hn. destruct (closure_grows n X) as [?|Hsize]; [done|].
  pose proof (subseteq_size _ _ (closure_in n X HX)). lia.
Qed.

Lemma closure_sound n : ∀ X y,
  y ∈ closure next n X → ∃ x, x ∈ X ∧ rtc (edge_of next) x y.
Proof.
  induction n as [|n IH]; intros X y; simpl.
  - intros ?. by exists y.
  - intros (x & [?|(x0 & ? & ?)]%elem_of_expand & Hrtc)%IH.
    + by exists x.
    + exists x0. split; [done|]. by eapply rtc_l.
Qed.

Lemma settled_complete Y x y :
  expand next Y = Y → x ∈ Y → rtc (edge_of next) x y → y ∈ Y.
Proof.
  intros HY Hx Hrtc. induction Hrtc as [|x x' y Hstep _ IH]; [done|].
  apply IH. rewrite <-HY. apply elem_of_expand. right. by exists x.
Qed.

(** After as many rounds as there are vertices the search from [i] has found
    exactly what can be reached from [i]. *)
Lemma elem_of_closure i y :
  i ∈ K → y ∈ closure next (size K) {[ i ]} ↔ rtc (edge_of next) i y.
Proof.
  intros Hi. split.
  - intros (x & ->%elem_of_singleton & ?)%closure_sound. done.
  - intros Hrtc. eapply settled_complete; [|by apply closure_subseteq, elem_of_singleton|done].
    apply closure_settled.
    + by apply singleton_subseteq_l.
    + rewrite size_singleton. lia.
Qed.

End closure_facts.

Section stratifier_facts.
Context {Predicate : Type} (g : @DependencyGraph Predicate).

(** What the section assumes of [g]: the edge sets name keys only, and the
    reverse edge sets are the transpose of the forward ones. The constructed
    graphs are such. *)
Hypothesis forward_in : ∀ i j, j ∈ forward g i → j ∈ dom (graph_rules g).
Hypothesis backward_in : ∀ i j, j ∈ backward g i → j ∈ dom (graph_rules g).
Hypothesis transpose : ∀ i j, j ∈ forward g i ↔ i ∈ backward g j.

Implicit Types (i j : nat) (G H : gset nat) (remaining : list (gset nat)).

Lemma elem_of_reachable i j :
  i ∈ dom (graph_rules g) → j ∈ reachable g i ↔ rtc (edge_of (forward g)) i j.
Proof.
  intros Hi. unfold reachable. rewrite <-size_dom.
  apply elem_of_closure; [|done]. intros x _ y. apply forward_in.
Qed.

Lemma rtc_backward i j :
  rtc (edge_of (backward g)) i j ↔ rtc (edge_of (forward g)) j i.
Proof.
  split.
  - induction 1 as [|i x j Hstep _ IH]; [done|].
    eapply rtc_r; [done|]. by apply transpose.
  - induction 1 as [|j x i Hstep _ IH]; [done|].
    eapply rtc_r; [done|]. by apply transpose.
Qed.

Lemma elem_of_coreachable i j :
  i ∈ dom (graph_rules g) → j ∈ coreachable g i ↔ rtc (edge_of (forward g)) j i.
Proof.
  intros Hi. unfold coreachable. rewrite <-size_dom, <-rtc_backward.
  apply elem_of_closure; [|done]. intros x _ y. apply backward_in.
Qed.

Lemma elem_of_component i j :
  i ∈ dom (graph_rules g) → j ∈ component g i ↔ mutually_dependent g i j.
Proof.
  intros Hi. unfold component, mutually_dependent.
  by rewrite elem_of_intersection, elem_of_reachable, elem_of_coreachable.
Qed.

Lemma rtc_forward_in i j :
  i ∈ dom (graph_rules g) → rtc (edge_of (forward g)) i j →
  j ∈ dom (graph_rules g).
Proof. intros Hi. induction 1 as [|i x j Hstep _ IH]; [done|]. eapply IH, forward_in, Hstep. Qed.

Lemma component_self i : i ∈ dom (graph_rules g) → i ∈ component g i.
Proof. intros Hi. by apply elem_of_component. Qed.

Lemma component_in i j :
  i ∈ dom (graph_rules g) → j ∈ component g i → j ∈ dom (graph_rules g).
Proof.
  intros Hi [Hij _]%elem_of_component; [|done]. by eapply rtc_forward_in.
Qed.

Lemma component_eq i j :
  i ∈ dom (graph_rules g) → j ∈ component g i → component g j = component g i.
Proof.
  intros Hi Hj. pose proof (component_in i j Hi Hj) as Hj'.
  apply elem_of_component in Hj as [Hij Hji]; [|done].
  apply set_eq. intros x. rewrite !elem_of_component by done.
  unfold mutually_dependent. split; intros [??]; split; by etrans.
Qed.

(** Two components that share a rule are one. *)
Lemma is_component_eq G H i :
  is_component g G → is_component g H → i ∈ G → i ∈ H → G = H.
Proof.
  intros (a & Ha & ->) (b & Hb & ->) HiG HiH.
  by rewrite <-(component_eq a i), <-(component_eq b i).
Qed.

Lemma is_component_in G i : is_component g G → i ∈ G → i ∈ dom (graph_rules g).
Proof. intros (a & Ha & ->) Hi. by eapply component_in. Qed.

Lemma is_component_mutual G i j :
  is_component g G → i ∈ G → (j ∈ G ↔ mutually_dependent g i j).
Proof.
  intros (a & Ha & ->) Hi.
  rewrite <-(component_eq a i) by done.
  apply elem_of_component. by eapply component_in.
Qed.

(** *** The list of components *)

Lemma components_loop_components ids : ∀ seen,
  Forall (λ i, i ∈ dom (graph_rules g)) ids →
  Forall (is_component g) (components_loop g ids seen).
Proof.
  induction ids as [|i ids IH]; intros seen Hids; simpl; [constructor|].
  apply Forall_cons in Hids as [Hi Hids].
  case_decide; [by apply IH|]. constructor; [by exists i|by apply IH].
Qed.

Lemma components_loop_cover ids : ∀ seen i,
  i ∈ ids → i ∈ dom (graph_rules g) →
  i ∈ seen ∨ ∃ G, G ∈ components_loop g ids seen ∧ i ∈ G.
Proof.
  induction ids as [|a ids IH]; intros seen i Hi HiK; simpl.
  { by apply elem_of_nil in Hi. }
  apply elem_of_cons in Hi as [->|Hi].
  - case_decide; [by left|]. right. exists (component g a).
    split; [by left|by apply component_self].
  - case_decide; [by apply IH|].
    destruct (IH (seen ∪ component g a) i Hi HiK) as [Hin|(G & HG & HiG)].
    + apply elem_of_union in Hin as [?|?]; [by left|].
      right. exists (component g a). split; [by left|done].
    + right. exists G. split; [by right|done].
Qed.

Lemma components_components : Forall (is_component g) (components g).
Proof.
  apply components_loop_components, Forall_forall.
  intros i Hi. by apply elem_of_sorted in Hi.
Qed.

Lemma components_cover i :
  i ∈ dom (graph_rules g) → ∃ G, G ∈ components g ∧ i ∈ G.
Proof.
  intros Hi. destruct (components_loop_cover (sorted_keys g) ∅ i) as [?|?];
    [by apply elem_of_sorted|done|set_solver|done].
Qed.

(** *** The order of the groups *)

Lemma depends_onb_spec G H : depends_onb g G H = true ↔ depends_on g G H.
Proof.
  unfold depends_onb, depends_on. rewrite bool_decide_eq_true. split.
  - intros (j & Hj)%set_choose_L.
    apply elem_of_intersection in Hj as [(i & Hj & Hi)%elem_of_set_bind HjH].
    by exists i, j.
  - intros (i & j & Hi & Hj & Hij) Hempty.
    apply (not_elem_of_empty (C:=gset nat) j). rewrite <-Hempty.
    apply elem_of_intersection. split; [|done].
    apply elem_of_set_bind. by exists i.
Qed.

Lemma eligible_spec remaining G :
  eligible g remaining G = true ↔
  ∀ H, H ∈ remaining → H ≠ G → ¬ depends_on g G H.
Proof.
  unfold eligible. rewrite forallb_forall. split.
  - intros Hall H HH Hne Hdep. specialize (Hall H).
    rewrite <-list_elem_of_In in Hall. specialize (Hall HH).
    apply orb_true_iff in Hall as [Heq%bool_decide_eq_true|Hn]; [done|].
    apply negb_true_iff in Hn. apply depends_onb_spec in Hdep. congruence.
  - intros Hall H HH%list_elem_of_In. apply orb_true_iff.
    destruct (decide (H = G)) as [->|Hne]; [left; by apply bool_decide_eq_true|].
    right. apply negb_true_iff, not_true_iff_false.
    intros Hdep%depends_onb_spec. by eapply Hall.
Qed.

Lemma reach_of_component i :
  i ∈ dom (graph_rules g) → reach_of g (component g i) = reachable g i.
Proof.
  intros Hi. apply set_eq. intros y. unfold reach_of.
  rewrite elem_of_set_bind. split.
  - intros (x & Hx & Hy). pose proof (component_in i x Hi Hx) as HxK.
    apply elem_of_component in Hx as [Hix _]; [|done].
    apply elem_of_reachable in Hy; [|done].
    apply elem_of_reachable; [done|]. by etrans.
  - intros Hy. exists i. split; [by apply component_self|done].
Qed.

(** A group depends on more than any other group that it depends on. *)
Lemma depends_on_smaller G H :
  is_component g G → is_component g H → G ≠ H → depends_on g G H →
  size (reach_of g H) < size (reach_of g G).
Proof.
  intros (a & Ha & ->) (b & Hb & ->) Hne (i & j & Hi & Hj & Hij).
  rewrite !reach_of_component by done.
  pose proof (component_in a i Ha Hi) as HiK.
  pose proof (component_in b j Hb Hj) as HjK.
  apply elem_of_component in Hi as [Hai Hia]; [|done].
  apply elem_of_component in Hj as [Hbj Hjb]; [|done].
  assert (rtc (edge_of (forward g)) a b) as Hab.
  { etrans; [exact Hai|]. eapply rtc_l; [exact Hij|done]. }
  apply subset_size. split.
  - intros y Hy%elem_of_reachable; [|done].
    apply elem_of_reachable; [done|]. by etrans.
  - intros Hsub. apply Hne. symmetry. apply component_eq; [done|].
    apply elem_of_component; [done|]. split; [done|].
    apply elem_of_reachable; [done|]. apply Hsub.
    by apply elem_of_reachable.
Qed.

Lemma eligible_or_dependency remaining G :
  eligible g remaining G = true ∨
  ∃ H, H ∈ remaining ∧ H ≠ G ∧ depends_on g G H.
Proof.
  unfold eligible. induction remaining as [|H remaining IH]; simpl; [by left|].
  destruct (decide (H = G)) as [->|Hne].
  - rewrite bool_decide_eq_true_2 by done. simpl.
    destruct IH as [?|(H' & ? & ? & ?)]; [by left|right].
    exists H'. split_and!; [by right|done..].
  - rewrite bool_decide_eq_false_2 by done. simpl.
    destruct (depends_onb g G H) eqn:Hdep; simpl.
    + right. exists H. split_and!; [by left|done|by apply depends_onb_spec].
    + destruct IH as [?|(H' & ? & ? & ?)]; [by left|right].
      exists H'. split_and!; [by right|done..].
Qed.

(** Among remaining components there is an eligible one: follow the
    dependencies, which cannot go on for ever. *)
Lemma exists_eligible_below remaining n : ∀ G,
  Forall (is_component g) remaining → G ∈ remaining →
  size (reach_of g G) < n →
  ∃ G', G' ∈ remaining ∧ eligible g remaining G' = true.
Proof.
  induction n as [|n IH]; intros G Hall HG Hn; [lia|].
  destruct (eligible_or_dependency remaining G) as [?|(H & HH & Hne & Hdep)].
  { by exists G. }
  apply (IH H); [done..|].
  rewrite Forall_forall in Hall.
  pose proof (depends_on_smaller G H (Hall G HG) (Hall H HH)
                (not_eq_sym Hne) Hdep). lia.
Qed.

Lemma exists_eligible remaining G :
  Forall (is_component g) remaining → G ∈ remaining →
  ∃ i G', list_find (λ G, eligible g remaining G = true) remaining = Some (i, G').
Proof.
  intros Hall HG.
  destruct (exists_eligible_below remaining (S (size (reach_of g G))) G)
    as (G' & HG' & Hel); [done..|lia|].
  destruct (list_find (λ G, eligible g remaining G = true) remaining)
    as [[i G'']|] eqn:Hfind; [by exists i, G''|].
  rewrite list_find_None, Forall_forall in Hfind. by destruct (Hfind G' HG').
Qed.

Lemma order_groups_sub fuel : ∀ remaining H,
  H ∈ order_groups g fuel remaining → H ∈ remaining.
Proof.
  induction fuel as [|fuel IH]; intros remaining H; simpl.
  { by intros ?%elem_of_nil. }
  destruct (list_find _ _) as [[i G]|] eqn:Hfind; [|by intros ?%elem_of_nil].
  apply list_find_Some in Hfind as (Hi & _).
  intros [->|Hin%IH]%elem_of_cons.
  - by eapply list_elem_of_lookup_2.
  - by apply list_elem_of_filter in Hin as [_ ?].
Qed.

Lemma order_groups_all fuel : ∀ remaining H,
  Forall (is_component g) remaining → length remaining ≤ fuel →
  H ∈ remaining → H ∈ order_groups g fuel remaining.
Proof.
  induction fuel as [|fuel IH]; intros remaining H Hall Hlen HH; simpl.
  { destruct remaining; [by apply elem_of_nil in HH|simpl in Hlen; lia]. }
  destruct (exists_eligible remaining H Hall HH) as (i & G & Hfind).
  rewrite Hfind. apply list_find_Some in Hfind as (Hi & _).
  destruct (decide (H = G)) as [->|Hne]; [by left|right].
  apply IH.
  - rewrite Forall_forall in Hall. apply Forall_forall.
    intros x [_ ?]%list_elem_of_filter. by apply Hall.
  - assert (length (filter (λ H, H ≠ G) remaining) < length remaining); [|lia].
    apply (length_filter_lt _ _ G); [by eapply list_elem_of_lookup_2|].
    by intros ?.
  - by apply list_elem_of_filter.
Qed.

Lemma order_groups_NoDup fuel : ∀ remaining,
  NoDup (order_groups g fuel remaining).
Proof.
  induction fuel as [|fuel IH]; intros remaining; simpl; [constructor|].
  destruct (list_find _ _) as [[i G]|]; [|constructor].
  constructor; [|apply IH].
  intros Hin%order_groups_sub. by apply list_elem_of_filter in Hin as [? _].
Qed.

(** A group that is emitted depends on no group emitted after it. *)
Lemma order_groups_order fuel : ∀ remaining k1 k2 G1 G2,
  order_groups g fuel remaining !! k1 = Some G1 →
  order_groups g fuel remaining !! k2 = Some G2 →
  k1 < k2 → ¬ depends_on g G1 G2.
Proof.
  induction fuel as [|fuel IH]; intros remaining k1 k2 G1 G2; simpl; [done|].
  destruct (list_find _ _) as [[i G]|] eqn:Hfind; [|done].
  apply list_find_Some in Hfind as (_ & Hel & _).
  destruct k1 as [|k1], k2 as [|k2]; simpl; try lia.
  - intros [= ->] H2 _.
    apply list_elem_of_lookup_2, order_groups_sub, list_elem_of_filter in H2
      as [Hne HG2].
    rewrite eligible_spec in Hel. by apply Hel.
  - intros H1 H2 ?. eapply IH; [done..|lia].
Qed.

(** The groups: every vertex is in the group at exactly one position, the
    groups hold vertices only, rules that depend on each other share their
    groups, and no group depends on a later one. *)
Lemma stratify_spec :
  (∀ i, i ∈ dom (graph_rules g) →
     ∃ k G, stratify g !! k = Some G ∧ i ∈ G ∧
            ∀ k' G', stratify g !! k' = Some G' → i ∈ G' → k' = k) ∧
  (∀ k G i, stratify g !! k = Some G → i ∈ G → i ∈ dom (graph_rules g)) ∧
  (∀ k G i j, stratify g !! k = Some G → i ∈ G →
     (j ∈ G ↔ mutually_dependent g i j)) ∧
  (∀ k1 k2 G1 G2, stratify g !! k1 = Some G1 → stratify g !! k2 = Some G2 →
     k1 < k2 → ¬ depends_on g G1 G2).
Proof.
  pose proof components_components as Hcomps.
  assert (∀ G, G ∈ stratify g → is_component g G) as Hcomp.
  { intros G HG%order_groups_sub. rewrite Forall_forall in Hcomps. by apply Hcomps. }
  split_and!.
  - intros i Hi. destruct (components_cover i Hi) as (G & HG & HiG).
    assert (G ∈ stratify g) as (k & Hk)%list_elem_of_lookup_1
      by by apply order_groups_all.
    exists k, G. split_and!; [done..|]. intros k' G' Hk' HiG'.
    assert (G' = G) as ->.
    { eapply is_component_eq; [| |done..]; apply Hcomp;
        by eapply list_elem_of_lookup_2. }
    eapply NoDup_lookup; [apply order_groups_NoDup|done..].
  - intros k G i Hk Hi. eapply is_component_in; [|done].
    apply Hcomp. by eapply list_elem_of_lookup_2.
  - intros k G i j Hk Hi. apply is_component_mutual; [|done].
    apply Hcomp. by eapply list_elem_of_lookup_2.
  - apply order_groups_order.
Qed.

End stratifier_facts.

Section stratifier_of_program.
Context {Predicate PredId : Type} `{!EqDecision PredId}.
Context (predicate_id : Predicate → PredId).

Implicit Types (rules : @Rules Predicate).

Lemma elem_of_forward_init rules i j :
  j ∈ forward (DependencyGraph_init predicate_id rules) i ↔
  ∃ ri rj, rules_rules rules !! i = Some ri ∧ rules_rules rules !! j = Some rj ∧
           refers_to predicate_id ri rj.
Proof.
  unfold forward. rewrite DependencyGraph_lookup.
  destruct (rules_rules rules !! i) as [ri|]; simpl.
  - rewrite elem_of_adjacency. split.
    + intros (rj & ? & ?). by exists ri, rj.
    + intros (? & rj & [= <-] & ? & ?). by exists rj.
  - split; [by intros ?%not_elem_of_empty|by intros (? & ? & ? & _)].
Qed.

Lemma elem_of_backward_init rules i j :
  j ∈ backward (DependencyGraph_init predicate_id rules) i ↔
  ∃ ri rj, rules_rules rules !! i = Some ri ∧ rules_rules rules !! j = Some rj ∧
           refers_to predicate_id rj ri.
Proof.
  unfold backward. rewrite DependencyGraph_lookup.
  destruct (rules_rules rules !! i) as [ri|]; simpl.
  - rewrite elem_of_reverse_edges. split.
    + intros (rj & ? & ?). by exists ri, rj.
    + intros (? & rj & [= <-] & ? & ?). by exists rj.
  - split; [by intros ?%not_elem_of_empty|by intros (? & ? & ? & _)].
Qed.

(** C6. The groups that the stratifier gives for the graph of a program
    with [N] rules: every rule id below [N] is in the group at exactly one
    position and the groups hold nothing else; two rules each of which can be
    reached from the other along forward edges (rules on a common cycle; a
    rule with a self-loop is the case [i = j]) are in the same group; and a
    group has no forward edge into a group that comes after it, so no group
    comes before a group it depends on. *)
Theorem stratify_partition_order rules :
  let g := DependencyGraph_init predicate_id rules in
  let N := length (rules_rules rules) in
  (∀ i, i < N →
     ∃ k G, stratify g !! k = Some G ∧ i ∈ G ∧
            ∀ k' G', stratify g !! k' = Some G' → i ∈ G' → k' = k) ∧
  (∀ k G i, stratify g !! k = Some G → i ∈ G → i < N) ∧
  (∀ k G i j, stratify g !! k = Some G → i ∈ G →
     rtc (edge_of (forward g)) i j → rtc (edge_of (forward g)) j i → j ∈ G) ∧
  (∀ k1 k2 G1 G2, stratify g !! k1 = Some G1 → stratify g !! k2 = Some G2 →
     k1 < k2 → ¬ ∃ i j, i ∈ G1 ∧ j ∈ G2 ∧ j ∈ forward g i).
Proof.
  intros g N.
  assert (∀ i, i ∈ dom (graph_rules g) ↔ i < N) as Hdom.
  { intros i. unfold g. by rewrite elem_of_dom, DependencyGraph_is_Some. }
  destruct (stratify_spec g) as (Hpart & Hin & Hcyc & Hord).
  - intros i j (ri & rj & _ & Hj & _)%elem_of_forward_init.
    apply Hdom. by eapply lookup_lt_Some.
  - intros i j (ri & rj & _ & Hj & _)%elem_of_backward_init.
    apply Hdom. by eapply lookup_lt_Some.
  - intros i j. unfold g.
    rewrite elem_of_forward_init, elem_of_backward_init.
    split; intros (a & b & ? & ? & ?); by exists b, a.
  - split_and!.
    + intros i Hi. by apply Hpart, Hdom.
    + intros k G i Hk Hi. apply Hdom. by eapply Hin.
    + intros k G i j Hk Hi Hij Hji. by apply (Hcyc k G i j Hk Hi).
    + intros k1 k2 G1 G2 H1 H2 Hlt. by apply (Hord k1 k2 G1 G2 H1 H2 Hlt).
Qed.

End stratifier_of_program.

(** ** The theorems at the example programs *)

Lemma adjacency_exact_witness :
  ancestor_rule1 ∈ rules_rules ancestor_rules ∧
  (1 ∈ adjacency example_id ancestor_rule1 ancestor_rules ↔
   ∃ rs, rules_rules ancestor_rules !! 1 = Some rs ∧
         example_id (rule_head rs) ∈
           predicate_ids example_id (rule_predicates ancestor_rule1)).
Proof.
  assert (ancestor_rule1 ∈ rules_rules ancestor_rules) as Hin
    by (apply list_elem_of_In; simpl; auto).
  split; [exact Hin|].
  exact (adjacency_exact example_id ancestor_rules ancestor_rule1 1 Hin).
Defined.

Lemma forward_reverse_transpose_witness :
  let g := graph_rules (DependencyGraph_init example_id chain_rules) in
  let v0 := Vertex_init example_id chain_rule0 0 chain_rules in
  let v1 := Vertex_init example_id chain_rule1 1 chain_rules in
  g !! 0 = Some v0 ∧ g !! 1 = Some v1 ∧
  (vertex_id v1 ∈ vertex_edges v0 ↔ vertex_id v0 ∈ vertex_reverse v1).
Proof.
  assert (graph_rules (DependencyGraph_init example_id chain_rules) !! 0 =
          Some (Vertex_init example_id chain_rule0 0 chain_rules)) as H0
    by (vm_compute; reflexivity).
  assert (graph_rules (DependencyGraph_init example_id chain_rules) !! 1 =
          Some (Vertex_init example_id chain_rule1 1 chain_rules)) as H1
    by (vm_compute; reflexivity).
  split; [exact H0|]. split; [exact H1|].
  exact (forward_reverse_transpose example_id chain_rules 0 1 _ _ H0 H1).
Defined.


Lemma graph_keys_and_edges_witness :
  rules_rules ancestor_rules !! 1 = Some ancestor_rule1 ∧
  example_id (rule_head ancestor_rule1) ∈
    predicate_ids example_id (rule_predicates ancestor_rule1) ∧
  size (graph_rules (DependencyGraph_init example_id ancestor_rules)) = 2 ∧
  ∃ v, graph_rules (DependencyGraph_init example_id ancestor_rules) !! 1 = Some v ∧
       1 ∈ vertex_edges v ∧ 1 ∈ vertex_reverse v.
Proof.
  assert (rules_rules ancestor_rules !! 1 = Some ancestor_rule1) as H1
    by reflexivity.
  assert (example_id (rule_head ancestor_rule1) ∈
            predicate_ids example_id (rule_predicates ancestor_rule1)) as Hself
    by (apply list_elem_of_In; simpl; auto).
  destruct (graph_keys_and_edges example_id ancestor_rules)
    as (_ & Hsize & _ & _ & _ & Hloop).
  split; [exact H1|]. split; [exact Hself|]. split; [exact Hsize|].
  exact (Hloop 1 ancestor_rule1 H1 Hself).
Defined.

Lemma listing_format_witness :
  DependencyGraph_str (DependencyGraph_init example_id chain_rules) =
    "R0:R1" +:+ newline +:+ "R1:" +:+ newline +:+ "R2:" +:+ newline ∧
  over_sorted_keys Vertex_str (DependencyGraph_init example_id chain_rules) !! 0 =
    Some "R0:R1" ∧
  over_sorted_keys (λ v, line_format (vertex_id v) (vertex_reverse v))
    (DependencyGraph_init example_id chain_rules) !! 1 = Some "R1:R0".
Proof.
  destruct (listing_format example_id chain_rules)
    as (_ & _ & _ & _ & _ & _ & _ & _ & Hscenario).
  destruct (Hscenario chain_rule0 chain_rule1 eq_refl eq_refl)
    as (_ & _ & Hfwd & Hrev).
  { apply list_elem_of_In; simpl; auto. }
  split; [vm_compute; reflexivity|]. split.
  - apply Hfwd. intros k r Hk Hr.
    destruct k as [|[|[|k]]]; simpl in Hk; [| |
      |by rewrite lookup_nil in Hk]; injection Hk as <-;
      [exfalso|reflexivity|exfalso];
      apply list_elem_of_In in Hr; simpl in Hr;
      destruct Hr as [Hr|[]]; discriminate Hr.
  - apply Hrev. intros k r Hk Hr.
    destruct k as [|[|[|k]]]; simpl in Hk; [| |
      |by rewrite lookup_nil in Hk]; injection Hk as <-;
      [reflexivity|exfalso|exfalso];
      apply list_elem_of_In in Hr; simpl in Hr;
      destruct Hr as [Hr|[]]; discriminate Hr.
Defined.

Lemma base_predicate_no_edge_witness :
  let p : example_predicate := ("c", ["X"]) in
  let g := graph_rules (DependencyGraph_init example_id chain_rules) in
  let rules' :=
    mkRules (<[ 1 := without_predicate example_id (example_id p) chain_rule1 ]>
               (rules_rules chain_rules)) in
  let g' := graph_rules (DependencyGraph_init example_id rules') in
  rules_rules chain_rules !! 1 = Some chain_rule1 ∧
  p ∈ rule_predicates chain_rule1 ∧
  (∀ q : Rule, q ∈ rules_rules chain_rules →
     example_id (rule_head q) ≠ example_id p) ∧
  is_Some (g !! 1) ∧
  vertex_edges <$> g !! 1 = vertex_edges <$> g' !! 1 ∧
  vertex_reverse <$> g !! 0 = vertex_reverse <$> g' !! 0.
Proof.
  intros p g rules' g'.
  assert (rules_rules chain_rules !! 1 = Some chain_rule1) as H1 by reflexivity.
  assert (p ∈ rule_predicates chain_rule1) as Hp
    by (apply list_elem_of_In; simpl; auto).
  assert (∀ q : Rule, q ∈ rules_rules chain_rules →
            example_id (rule_head q) ≠ example_id p) as Hbase.
  { intros q Hq. apply list_elem_of_In in Hq. simpl in Hq.
    destruct Hq as [<-|[<-|[<-|[]]]]; discriminate. }
  pose proof (base_predicate_no_edge example_id chain_rules 1 chain_rule1 p
                H1 Hp Hbase) as Hthm.
  cbv zeta in Hthm. destruct Hthm as (Hbuilt & _ & _ & Hfwd & Hrev).
  split; [exact H1|]. split; [exact Hp|]. split; [exact Hbase|].
  split; [apply Hbuilt; simpl; lia|]. split; [apply Hfwd|apply Hrev].
Defined.

Lemma HeapFacts_construction_leaves_rules_witness :
  Heap.repr_rules ancestor_heap 0 ancestor_rules ∧
  ∃ d h', Heap.DependencyGraph_init example_id ancestor_heap 0 = Some (d, h') ∧
          (∀ l x, ancestor_heap !! l = Some x → h' !! l = Some x) ∧
          Heap.repr_rules h' 0 ancestor_rules.
Proof.
  assert (Heap.repr_rules ancestor_heap 0 ancestor_rules) as Hrepr.
  { exists 1, [2; 3]. split; [reflexivity|]. split; [reflexivity|].
    repeat constructor.
    - exists 4, 5. split; [reflexivity|]. split; [reflexivity|].
      exists [8]. split; [reflexivity|]. repeat constructor.
    - exists 6, 7. split; [reflexivity|]. split; [reflexivity|].
      exists [9; 10]. split; [reflexivity|]. repeat constructor. }
  split; [exact Hrepr|].
  destruct (HeapFacts.construction_leaves_rules example_id ancestor_heap 0)
    as [Hframe Hrun].
  destruct (Hrun ancestor_rules Hrepr) as (d & h' & Hinit & Hrepr' & _).
  exists d, h'. split; [exact Hinit|]. split; [|exact Hrepr'].
  exact (proj1 (Hframe d h' Hinit)).
Defined.

Lemma stratify_partition_order_witness :
  let g := DependencyGraph_init example_id mutual_rules in
  stratify g = [ {[ 4 ]}; {[ 2 ]}; {[ 0; 1 ]}; {[ 3 ]} ] ∧
  (∃ k G, stratify g !! k = Some G ∧ 1 ∈ G ∧
          ∀ k' G', stratify g !! k' = Some G' → 1 ∈ G' → k' = k) ∧
  ¬ ∃ i j, i ∈ ({[ 2 ]} : gset nat) ∧ j ∈ ({[ 0; 1 ]} : gset nat) ∧
           j ∈ forward g i.
Proof.
  cbv zeta.
  assert (stratify (DependencyGraph_init example_id mutual_rules) =
          [ {[ 4 ]}; {[ 2 ]}; {[ 0; 1 ]}; {[ 3 ]} ]) as Hgroups
    by (vm_compute; reflexivity).
  pose proof (stratify_partition_order example_id mutual_rules) as Hthm.
  cbv zeta in Hthm. destruct Hthm as (Hpart & _ & _ & Hord).
  split; [exact Hgroups|]. split.
  - apply Hpart. simpl. lia.
  - apply (Hord 1 2); [by rewrite Hgroups..|lia].
Defined.

Lemma queries_evaluated_once_after_rules_witness :
  let r := RuleOptimizer_init example_id example_super_init
             example_evaluate_query example_program in
  trace r = [call_super_init false; call_DependencyGraph;
             call_evaluate_optimized_rules;
             call_evaluate_query "anc(a,X)?"; call_evaluate_query "par(X,b)?"] ∧
  NoDup (program_queries example_program) ∧
  length (filter (λ e, e = call_evaluate_query "par(X,b)?") (trace r)) = 1 ∧
  dict_get (rdbms (object r)) "par(X,b)?" = Some ("par(X,b)?", 1).
Proof.
  intros r.
  destruct (queries_evaluated_once_after_rules example_id example_super_init
              example_evaluate_query example_program)
    as (Htrace & _ & _ & Honce & _ & _ & Hstored).
  assert (NoDup (program_queries example_program)) as Hnd.
  { apply NoDup_ListNoDup. repeat constructor; simpl; intuition discriminate. }
  split; [exact Htrace|]. split; [exact Hnd|]. split.
  - apply (Honce Hnd). apply list_elem_of_In; simpl; auto.
  - apply (Hstored 1 "par(X,b)?" eq_refl).
    intros k' Hk'. destruct k' as [|[|k']]; [lia..|]. simpl.
    rewrite lookup_nil. discriminate.
Defined.

(** The body of rule 0 of [shared_rules] names the head of rule 1, and yet
    [R0:R1] is no line of the forward listing and [R1:R0] no line of the
    reverse listing: the lines name the other neighbours too. *)
Lemma listing_format_counterexample :
  let g := DependencyGraph_init example_id shared_rules in
  let fwd := over_sorted_keys Vertex_str g in
  let rev :=
    over_sorted_keys (λ v, line_format (vertex_id v) (vertex_reverse v)) g in
  rules_rules shared_rules !! 0 = Some shared_rule0 ∧
  rules_rules shared_rules !! 1 = Some shared_rule1 ∧
  example_id (rule_head shared_rule1) ∈
    predicate_ids example_id (rule_predicates shared_rule0) ∧
  fwd = ["R0:R0,R1"; "R1:"; "R2:R1"] ∧ ("R0:R1" ∉ fwd) ∧
  rev = ["R0:R0"; "R1:R0,R2"; "R2:"] ∧ ("R1:R0" ∉ rev).
Proof.
  cbv zeta.
  assert (over_sorted_keys Vertex_str
            (DependencyGraph_init example_id shared_rules) =
          ["R0:R0,R1"; "R1:"; "R2:R1"]) as -> by (vm_compute; reflexivity).
  assert (over_sorted_keys (λ v, line_format (vertex_id v) (vertex_reverse v))
            (DependencyGraph_init example_id shared_rules) =
          ["R0:R0"; "R1:R0,R2"; "R2:"]) as -> by (vm_compute; reflexivity).
  split_and!; [reflexivity|reflexivity| |reflexivity| |reflexivity|].
  - apply list_elem_of_In; simpl; auto.
  - rewrite list_elem_of_In. simpl. intuition discriminate.
  - rewrite list_elem_of_In. simpl. intuition discriminate.
Qed.

(** * Further properties of the graph construction *)

Section edge_set_facts.
Context {Predicate PredId : Type} `{!EqDecision PredId}.
Context (predicate_id : Predicate → PredId).

Implicit Types (rule r : @Rule Predicate) (rules : @Rules Predicate).
Implicit Types (ps : list Predicate) (i j : nat).

Lemma adjacency_ext rule rule' rules :
  (∀ x, x ∈ predicate_ids predicate_id (rule_predicates rule) ↔
        x ∈ predicate_ids predicate_id (rule_predicates rule')) →
  adjacency predicate_id rule rules = adjacency predicate_id rule' rules.
Proof.
  intros Hids. apply set_eq. intros s. rewrite !elem_of_adjacency.
  unfold refers_to. by setoid_rewrite Hids.
Qed.

Lemma reverse_edges_ext rule rule' rules :
  predicate_id (rule_head rule) = predicate_id (rule_head rule') →
  reverse_edges predicate_id rule rules = reverse_edges predicate_id rule' rules.
Proof.
  intros Hhead. apply set_eq. intros s. rewrite !elem_of_reverse_edges.
  unfold refers_to. by rewrite Hhead.
Qed.

(** X1. The forward edge set of a rule does not depend on its head, and it
    is additive in the body: for a body in two parts it is the union of the
    sets of the parts. *)
Theorem adjacency_body_app rules (head head' : Predicate) ps1 ps2 :
  adjacency predicate_id (mkRule head (ps1 ++ ps2)) rules =
  adjacency predicate_id (mkRule head' ps1) rules ∪
  adjacency predicate_id (mkRule head' ps2) rules.
Proof.
  apply set_eq. intros s.
  rewrite elem_of_union, !elem_of_adjacency. unfold refers_to, predicate_ids.
  simpl. setoid_rewrite fmap_app. setoid_rewrite elem_of_app. split.
  - intros (r & Hr & [?|?]); [left|right]; by exists r.
  - intros [(r & Hr & ?)|(r & Hr & ?)]; exists r; auto.
Qed.

Lemma DependencyGraph_edges_lookup rules i :
  vertex_edges <$> graph_rules (DependencyGraph_init predicate_id rules) !! i =
  (λ r, adjacency predicate_id r rules) <$> rules_rules rules !! i.
Proof. rewrite DependencyGraph_lookup. by destruct (rules_rules rules !! i). Qed.

Lemma DependencyGraph_reverse_lookup rules i :
  vertex_reverse <$> graph_rules (DependencyGraph_init predicate_id rules) !! i =
  (λ r, reverse_edges predicate_id r rules) <$> rules_rules rules !! i.
Proof. rewrite DependencyGraph_lookup. by destruct (rules_rules rules !! i). Qed.

Lemma same_ids_refers r1 r1' r2 r2' :
  same_ids predicate_id r1 r1' → same_ids predicate_id r2 r2' →
  refers_to predicate_id r1 r2 ↔ refers_to predicate_id r1' r2'.
Proof. intros [_ Hbody] [Hhead _]. unfold refers_to. by rewrite Hhead, Hbody. Qed.

Lemma same_ids_adjacency rules rules' r r' :
  Forall2 (same_ids predicate_id) (rules_rules rules) (rules_rules rules') → same_ids predicate_id r r' →
  adjacency predicate_id r rules = adjacency predicate_id r' rules'.
Proof.
  intros Hall Hr. apply set_eq. intros s. rewrite !elem_of_adjacency. split.
  - intros (q & Hq & Href).
    destruct (Forall2_lookup_l _ _ _ _ _ Hall Hq) as (q' & Hq' & Hqq').
    exists q'. split; [done|]. by apply (same_ids_refers r r' q q').
  - intros (q' & Hq' & Href).
    destruct (Forall2_lookup_r _ _ _ _ _ Hall Hq') as (q & Hq & Hqq').
    exists q. split; [done|]. by apply (same_ids_refers r r' q q').
Qed.

Lemma same_ids_reverse_edges rules rules' r r' :
  Forall2 (same_ids predicate_id) (rules_rules rules) (rules_rules rules') → same_ids predicate_id r r' →
  reverse_edges predicate_id r rules = reverse_edges predicate_id r' rules'.
Proof.
  intros Hall Hr. apply set_eq. intros s. rewrite !elem_of_reverse_edges. split.
  - intros (q & Hq & Href).
    destruct (Forall2_lookup_l _ _ _ _ _ Hall Hq) as (q' & Hq' & Hqq').
    exists q'. split; [done|]. by apply (same_ids_refers q q' r r').
  - intros (q' & Hq' & Href).
    destruct (Forall2_lookup_r _ _ _ _ _ Hall Hq') as (q & Hq & Hqq').
    exists q. split; [done|]. by apply (same_ids_refers q q' r r').
Qed.

(** X2. The graph sees identities only. Two programs whose rules agree, one
    by one, on the head identity and on the set of body identities have the
    same forward and reverse edge sets at every vertex, and the same two
    listings: neither the parameters of the predicates nor the order or the
    repetitions in a body matter. *)
Theorem graph_depends_on_ids_only rules rules' :
  Forall2 (same_ids predicate_id) (rules_rules rules) (rules_rules rules') →
  let g := DependencyGraph_init predicate_id rules in
  let g' := DependencyGraph_init predicate_id rules' in
  (∀ i, vertex_edges <$> graph_rules g !! i =
        vertex_edges <$> graph_rules g' !! i) ∧
  (∀ i, vertex_reverse <$> graph_rules g !! i =
        vertex_reverse <$> graph_rules g' !! i) ∧
  DependencyGraph_str g = DependencyGraph_str g' ∧
  DependencyGraph_reverse g = DependencyGraph_reverse g'.
Proof.
  intros Hall g g'.
  assert (∀ (f : Rule → Rules → gset nat),
            (∀ r r', same_ids predicate_id r r' → f r rules = f r' rules') →
            imap (λ i r, line_format i (f r rules)) (rules_rules rules) =
            imap (λ i r, line_format i (f r rules')) (rules_rules rules'))
    as Hlines.
  { intros f Hf. apply list_eq. intros i. rewrite !list_lookup_imap.
    destruct (rules_rules rules !! i) as [r|] eqn:Hr.
    - destruct (Forall2_lookup_l _ _ _ _ _ Hall Hr) as (r' & -> & Hrr').
      simpl. by rewrite (Hf r r').
    - apply Forall2_length in Hall. apply lookup_ge_None in Hr.
      rewrite lookup_ge_None_2; [done|lia]. }
  split_and!.
  - intros i. unfold g, g'. rewrite !DependencyGraph_edges_lookup.
    destruct (rules_rules rules !! i) as [r|] eqn:Hr.
    + destruct (Forall2_lookup_l _ _ _ _ _ Hall Hr) as (r' & -> & Hrr').
      simpl. f_equal. by apply same_ids_adjacency.
    + apply Forall2_length in Hall. apply lookup_ge_None in Hr.
      rewrite lookup_ge_None_2; [done|lia].
  - intros i. unfold g, g'. rewrite !DependencyGraph_reverse_lookup.
    destruct (rules_rules rules !! i) as [r|] eqn:Hr.
    + destruct (Forall2_lookup_l _ _ _ _ _ Hall Hr) as (r' & -> & Hrr').
      simpl. f_equal. by apply same_ids_reverse_edges.
    + apply Forall2_length in Hall. apply lookup_ge_None in Hr.
      rewrite lookup_ge_None_2; [done|lia].
  - unfold DependencyGraph_str, g, g'. rewrite !over_sorted_keys_init.
    unfold Vertex_str; simpl. f_equal. f_equal.
    apply (Hlines (adjacency predicate_id)). intros. by apply same_ids_adjacency.
  - unfold DependencyGraph_reverse, g, g'. rewrite !over_sorted_keys_init.
    simpl. f_equal. f_equal.
    apply (Hlines (reverse_edges predicate_id)).
    intros. by apply same_ids_reverse_edges.
Qed.

(** X3. A forward edge set is empty exactly when no rule of the program
    defines a predicate of the body, as for a rule without body; a reverse
    edge set is empty exactly when no body of the program names the head;
    for the empty program both are empty. *)
Theorem no_edges_iff rules r :
  (adjacency predicate_id r rules = ∅ ↔
   ∀ q, q ∈ rules_rules rules →
        predicate_id (rule_head q) ∉
          predicate_ids predicate_id (rule_predicates r)) ∧
  (reverse_edges predicate_id r rules = ∅ ↔
   ∀ q, q ∈ rules_rules rules →
        predicate_id (rule_head r) ∉
          predicate_ids predicate_id (rule_predicates q)) ∧
  (rule_predicates r = [] → adjacency predicate_id r rules = ∅) ∧
  (rules_rules rules = [] →
   adjacency predicate_id r rules = ∅ ∧ reverse_edges predicate_id r rules = ∅).
Proof.
  assert (adjacency predicate_id r rules = ∅ ↔
          ∀ q, q ∈ rules_rules rules → ¬ refers_to predicate_id r q) as Hfwd.
  { split.
    - intros Hempty q (s & Hs)%list_elem_of_lookup_1 Href.
      apply (not_elem_of_empty (C:=gset nat) s). rewrite <-Hempty.
      apply elem_of_adjacency. by exists q.
    - intros Hnone. apply set_eq. intros s. split; [|by intros ?%not_elem_of_empty].
      intros (q & Hs & Href)%elem_of_adjacency.
      destruct (Hnone q); [by eapply list_elem_of_lookup_2|done]. }
  assert (reverse_edges predicate_id r rules = ∅ ↔
          ∀ q, q ∈ rules_rules rules → ¬ refers_to predicate_id q r) as Hrev.
  { split.
    - intros Hempty q (s & Hs)%list_elem_of_lookup_1 Href.
      apply (not_elem_of_empty (C:=gset nat) s). rewrite <-Hempty.
      apply elem_of_reverse_edges. by exists q.
    - intros Hnone. apply set_eq. intros s. split; [|by intros ?%not_elem_of_empty].
      intros (q & Hs & Href)%elem_of_reverse_edges.
      destruct (Hnone q); [by eapply list_elem_of_lookup_2|done]. }
  split_and!; [done|done| |].
  - intros Hbody. apply Hfwd. intros q _. unfold refers_to.
    rewrite Hbody. apply not_elem_of_nil.
  - intros Hnil. split; [apply Hfwd|apply Hrev]; intros q Hq;
      rewrite Hnil in Hq; by apply elem_of_nil in Hq.
Qed.

Lemma adjacency_loop_app rule rs1 rs2 : ∀ i adjacent,
  adjacency_loop predicate_id rule i (rs1 ++ rs2) adjacent =
  adjacency_loop predicate_id rule (i + length rs1) rs2
    (adjacency_loop predicate_id rule i rs1 adjacent).
Proof.
  induction rs1 as [|r rs1 IH]; intros i adjacent; simpl.
  - by rewrite Nat.add_0_r.
  - rewrite IH. f_equal. lia.
Qed.

Lemma reverse_edges_loop_app rule rs1 rs2 : ∀ i reverse,
  reverse_edges_loop predicate_id rule i (rs1 ++ rs2) reverse =
  reverse_edges_loop predicate_id rule (i + length rs1) rs2
    (reverse_edges_loop predicate_id rule i rs1 reverse).
Proof.
  induction rs1 as [|r rs1 IH]; intros i reverse; simpl.
  - by rewrite Nat.add_0_r.
  - rewrite IH. f_equal. lia.
Qed.

(** X4. Appending a rule [r'] to a program of [N] rules keeps every edge:
    the forward edge set of a rule [r] over the longer program is the old
    one, plus [N] when the body of [r] names the head of [r']; its reverse
    edge set is the old one, plus [N] when the body of [r'] names the head of
    [r]; and [N] was in neither before. *)
Theorem append_rule_edges rules r' r :
  let rules2 := mkRules (rules_rules rules ++ [r']) in
  let N := length (rules_rules rules) in
  adjacency predicate_id r rules2 =
    (if py_in (predicate_id (rule_head r'))
              (predicate_ids predicate_id (rule_predicates r))
     then {[ N ]} else ∅) ∪ adjacency predicate_id r rules ∧
  reverse_edges predicate_id r rules2 =
    (if py_in (predicate_id (rule_head r))
              (predicate_ids predicate_id (rule_predicates r'))
     then {[ N ]} else ∅) ∪ reverse_edges predicate_id r rules ∧
  (N ∉ adjacency predicate_id r rules) ∧
  (N ∉ reverse_edges predicate_id r rules).
Proof.
  intros rules2 N. split_and!.
  - unfold adjacency, rules2; simpl. rewrite adjacency_loop_app; simpl.
    destruct (py_in _ _); [done|]. by rewrite (left_id_L ∅ (∪)).
  - unfold reverse_edges, rules2; simpl. rewrite reverse_edges_loop_app; simpl.
    destruct (py_in _ _); [done|]. by rewrite (left_id_L ∅ (∪)).
  - intros (q & Hq%lookup_lt_Some & _)%elem_of_adjacency. unfold N in Hq. lia.
  - intros (q & Hq%lookup_lt_Some & _)%elem_of_reverse_edges. unfold N in Hq. lia.
Qed.

(** *** Counting the edges *)

Lemma size_adjacency_loop rule rs : ∀ i adjacent,
  (∀ x, x ∈ adjacent → x < i) →
  size (adjacency_loop predicate_id rule i rs adjacent) =
  size adjacent +
  length (filter (λ q, py_in (predicate_id (rule_head q))
                         (predicate_ids predicate_id (rule_predicates rule))
                       = true) rs).
Proof.
  induction rs as [|r rs IH]; intros i adjacent Hlt; simpl; [lia|].
  rewrite filter_cons. destruct (py_in _ _) eqn:Hin.
  - rewrite decide_True by done. rewrite IH.
    + rewrite size_union, size_singleton; [simpl; lia|].
      intros x ->%elem_of_singleton Hx. specialize (Hlt _ Hx). lia.
    + intros x [->%elem_of_singleton|Hx%Hlt]%elem_of_union; lia.
  - rewrite decide_False by done. rewrite IH; [done|].
    intros x Hx%Hlt. lia.
Qed.

Lemma size_reverse_edges_loop rule rs : ∀ i reverse,
  (∀ x, x ∈ reverse → x < i) →
  size (reverse_edges_loop predicate_id rule i rs reverse) =
  size reverse +
  length (filter (λ q, py_in (predicate_id (rule_head rule))
                         (predicate_ids predicate_id (rule_predicates q))
                       = true) rs).
Proof.
  induction rs as [|r rs IH]; intros i reverse Hlt; simpl; [lia|].
  rewrite filter_cons. destruct (py_in _ _) eqn:Hin.
  - rewrite decide_True by done. rewrite IH.
    + rewrite size_union, size_singleton; [simpl; lia|].
      intros x ->%elem_of_singleton Hx. specialize (Hlt _ Hx). lia.
    + intros x [->%elem_of_singleton|Hx%Hlt]%elem_of_union; lia.
  - rewrite decide_False by done. rewrite IH; [done|].
    intros x Hx%Hlt. lia.
Qed.

Lemma sum_count_cons {A B} (P : A → B → bool) (a : A) (l1 : list A) (l2 : list B) :
  sum_list ((λ b, length (filter (λ a', P a' b = true) (a :: l1))) <$> l2) =
  length (filter (λ b, P a b = true) l2) +
  sum_list ((λ b, length (filter (λ a', P a' b = true) l1)) <$> l2).
Proof.
  induction l2 as [|b l2 IH]; [done|].
  rewrite !fmap_cons. simpl. rewrite IH, !filter_cons.
  destruct (P a b); simpl; lia.
Qed.

(** Counting the pairs that pass a test by rows or by columns. *)
Lemma sum_count_swap {A B} (P : A → B → bool) (l1 : list A) (l2 : list B) :
  sum_list ((λ a, length (filter (λ b, P a b = true) l2)) <$> l1) =
  sum_list ((λ b, length (filter (λ a, P a b = true) l1)) <$> l2).
Proof.
  induction l1 as [|a l1 IH].
  - simpl. induction l2 as [|b l2 IH2]; [done|]. by rewrite fmap_cons.
  - rewrite fmap_cons. simpl. by rewrite IH, sum_count_cons.
Qed.

Lemma vertices_in_order_init rules :
  vertices_in_order (DependencyGraph_init predicate_id rules) =
  imap (λ i r, Vertex_init predicate_id r i rules) (rules_rules rules).
Proof.
  unfold vertices_in_order. rewrite sorted_keys_init, <-omap_lookup_seq.
  apply omap_ext_elem_of. intros i _. apply DependencyGraph_lookup.
Qed.

(** X5. Over the whole graph there are as many forward edges as reverse
    edges: the sizes of the forward edge sets of all vertices and the sizes
    of their reverse edge sets add up to the same number. *)
Theorem edge_totals_agree rules :
  let vs := vertices_in_order (DependencyGraph_init predicate_id rules) in
  sum_list ((λ v, size (vertex_edges v)) <$> vs) =
  sum_list ((λ v, size (vertex_reverse v)) <$> vs).
Proof.
  intros vs. unfold vs. rewrite vertices_in_order_init.
  assert (∀ (f : Vertex → nat) (h : Rule → nat),
            (∀ i r, f (Vertex_init predicate_id r i rules) = h r) →
            f <$> imap (λ i r, Vertex_init predicate_id r i rules)
                    (rules_rules rules) = h <$> rules_rules rules) as Hmap.
  { intros f h Hfh. apply list_eq. intros i.
    rewrite !list_lookup_fmap, list_lookup_imap.
    destruct (rules_rules rules !! i); simpl; [by rewrite Hfh|done]. }
  rewrite (Hmap _ (λ r, size (adjacency predicate_id r rules))) by done.
  rewrite (Hmap _ (λ r, size (reverse_edges predicate_id r rules))) by done.
  set (P := λ a b : Rule,
         py_in (predicate_id (rule_head b))
               (predicate_ids predicate_id (rule_predicates a))).
  transitivity (sum_list ((λ a, length (filter (λ b, P a b = true)
                                          (rules_rules rules)))
                          <$> rules_rules rules)).
  - f_equal. apply list_fmap_ext. intros _ r _.
    unfold adjacency. rewrite size_adjacency_loop.
    + by rewrite size_empty.
    + by intros x ?%not_elem_of_empty.
  - rewrite sum_count_swap. f_equal. apply list_fmap_ext. intros _ r _.
    unfold reverse_edges. rewrite size_reverse_edges_loop.
    + by rewrite size_empty.
    + by intros x ?%not_elem_of_empty.
Qed.

End edge_set_facts.

(** * Further properties of the rendering *)

Section text_facts.
Implicit Types (a b t : string) (c : Ascii.ascii) (l : list string).

Lemma char_free_app c a b : char_free c (a +:+ b) ↔ char_free c a ∧ char_free c b.
Proof. unfold char_free. by rewrite list_ascii_of_string_app, not_elem_of_app. Qed.

Lemma char_free_cons c x a : char_free c (String x a) ↔ c ≠ x ∧ char_free c a.
Proof. unfold char_free; simpl. apply not_elem_of_cons. Qed.

Lemma char_free_empty c : char_free c "".
Proof. unfold char_free; simpl. apply not_elem_of_nil. Qed.

(** A text is cut in one way only at the first occurrence of [c]. *)
Lemma app_sep_inj c a : ∀ a' b b',
  char_free c a → char_free c a' →
  a +:+ String c b = a' +:+ String c b' → a = a' ∧ b = b'.
Proof.
  induction a as [|x a IH]; intros [|x' a'] b b' Ha Ha'; simpl.
  - by intros [= ->].
  - intros [= <- _]. by apply char_free_cons in Ha' as [? _].
  - intros [= -> _]. by apply char_free_cons in Ha as [? _].
  - intros [= -> Heq]. apply char_free_cons in Ha as [_ Ha].
    apply char_free_cons in Ha' as [_ Ha'].
    destruct (IH a' b b' Ha Ha' Heq) as [-> ->]. done.
Qed.

Lemma append_inj_r a a' t : a +:+ t = a' +:+ t → a = a'.
Proof.
  intros Heq.
  assert (String.list_ascii_of_string a = String.list_ascii_of_string a') as Hl.
  { apply (app_inv_tail (String.list_ascii_of_string t)).
    by rewrite <-!list_ascii_of_string_app, Heq. }
  by rewrite <-(String.string_of_list_ascii_of_string a), Hl,
    String.string_of_list_ascii_of_string.
Qed.

(** Joining with a one-character separator loses nothing when no item is
    empty and none holds the separator. *)
Lemma join_inj c l : ∀ l',
  Forall (λ x, char_free c x ∧ x ≠ "") l →
  Forall (λ x, char_free c x ∧ x ≠ "") l' →
  join (String c "") l = join (String c "") l' → l = l'.
Proof.
  unfold join.
  induction l as [|x [|y l] IH]; intros [|x' [|y' l']] Hl Hl'; simpl;
    try done.
  - intros Heq. apply Forall_cons in Hl' as [[_ Hne] _]. by destruct Hne.
  - intros Heq. apply Forall_cons in Hl' as [[_ Hne] _].
    destruct x'; [done|discriminate].
  - intros Heq. apply Forall_cons in Hl as [[_ Hne] _]. by destruct Hne.
  - by intros ->.
  - intros ->. apply Forall_cons in Hl as [[Hfree _] _].
    apply char_free_app in Hfree as [_ Hfree].
    by apply char_free_cons in Hfree as [? _].
  - intros Heq. apply Forall_cons in Hl as [[_ Hne] _].
    destruct x; [done|discriminate].
  - intros <-. apply Forall_cons in Hl' as [[Hfree _] _].
    apply char_free_app in Hfree as [_ Hfree].
    by apply char_free_cons in Hfree as [? _].
  - intros Heq. apply Forall_cons in Hl as [[Hx _] Hl].
    apply Forall_cons in Hl' as [[Hx' _] Hl'].
    apply app_sep_inj in Heq as [-> Heq]; [|done..].
    f_equal. by apply IH.
Qed.

Lemma char_free_pretty_N_go c (x : N) : ∀ acc : string,
  (∀ d : N, pretty_N_char d ≠ c) →
  char_free c acc → char_free c (pretty_N_go x acc).
Proof.
  induction (N.lt_wf_0 x) as [x _ IH]; intros acc Hc Hacc.
  destruct (decide (x = 0)%N) as [->|Hx]; [by rewrite pretty_N_go_0|].
  rewrite pretty_N_go_step by lia. apply IH; [apply N.div_lt; lia|done|].
  apply char_free_cons. split; [|done]. intros ->. by eapply Hc.
Qed.

(** The decimal of a number holds digits only. *)
Lemma char_free_pretty c (n : nat) :
  (∀ d : N, pretty_N_char d ≠ c) → char_free c (pretty n).
Proof.
  intros Hc. unfold pretty, pretty_nat, pretty, pretty_N. case_decide.
  - apply char_free_cons. split; [|apply char_free_empty].
    intros ->. by apply (Hc 0%N).
  - apply char_free_pretty_N_go; [done|apply char_free_empty].
Qed.

Lemma not_digit_colon (d : N) : pretty_N_char d ≠ Ascii.ascii_of_nat 58.
Proof. unfold pretty_N_char. by repeat case_match. Qed.

Lemma not_digit_comma (d : N) : pretty_N_char d ≠ Ascii.ascii_of_nat 44.
Proof. unfold pretty_N_char. by repeat case_match. Qed.

Lemma R_format_inj : Inj (=) (=) R_format.
Proof. intros n n' [= Heq]. by apply (inj pretty). Qed.

Lemma R_format_item n :
  char_free (Ascii.ascii_of_nat 44) (R_format n) ∧ R_format n ≠ "".
Proof.
  split; [|done]. unfold R_format. apply char_free_app. split.
  - apply char_free_cons. split; [done|apply char_free_empty].
  - apply char_free_pretty, not_digit_comma.
Qed.

(** A line names its vertex and its neighbours without loss. *)
Lemma line_format_inj i i' (s s' : gset nat) :
  line_format i s = line_format i' s' → i = i' ∧ s = s'.
Proof.
  unfold line_format. simpl. intros [= Heq].
  apply app_sep_inj in Heq as [Hi Hs];
    [|apply char_free_pretty, not_digit_colon..].
  split; [by apply (inj pretty)|].
  apply (join_inj (Ascii.ascii_of_nat 44)) in Hs.
  - apply (inj (fmap R_format)) in Hs.
    apply set_eq. intros j. by rewrite <-!elem_of_sorted, Hs.
  - apply Forall_fmap, Forall_forall. intros n _. apply R_format_item.
  - apply Forall_fmap, Forall_forall. intros n _. apply R_format_item.
Qed.

Lemma line_format_item i (s : gset nat) :
  char_free (Ascii.ascii_of_nat 10) (line_format i s) ∧ line_format i s ≠ "".
Proof. split; [apply newline_free_line_format|done]. Qed.

End text_facts.

Section listing_round_trip.
Context {Predicate PredId : Type} `{!EqDecision PredId}.
Context (predicate_id : Predicate → PredId).

Implicit Types (g : @DependencyGraph Predicate) (rules : @Rules Predicate).

Lemma over_sorted_keys_fmap (f : @Vertex Predicate → string) g :
  over_sorted_keys f g = f <$> vertices_in_order g.
Proof. unfold over_sorted_keys, vertices_in_order. by rewrite list_fmap_omap. Qed.

Lemma length_vertices_in_order g :
  length (vertices_in_order g) = size (graph_rules g).
Proof.
  unfold vertices_in_order, sorted_keys.
  assert (∀ l : list nat,
            (∀ i, i ∈ l → is_Some (graph_rules g !! i)) →
            length (omap (λ i, graph_rules g !! i) l) = length l) as Hlen.
  { induction l as [|i l IH]; intros Hkeys; [done|]. csimpl.
    destruct (Hkeys i) as [v ->]; [by left|]. simpl. f_equal.
    apply IH. intros j Hj. apply Hkeys. by right. }
  rewrite Hlen by (intros i ?%elem_of_sorted; by apply elem_of_dom).
  rewrite (Permutation_length (sorted_Permutation (dom (graph_rules g)))).
  by rewrite <-size_dom.
Qed.

(** Lists of lines with equal joins are equal. *)
Lemma lines_inj (f : @Vertex Predicate → nat * gset nat) g g' :
  join newline ((λ v, line_format (f v).1 (f v).2) <$> vertices_in_order g)
    +:+ newline =
  join newline ((λ v, line_format (f v).1 (f v).2) <$> vertices_in_order g')
    +:+ newline →
  f <$> vertices_in_order g = f <$> vertices_in_order g'.
Proof.
  intros Heq%append_inj_r. apply (join_inj (Ascii.ascii_of_nat 10)) in Heq.
  - rewrite !(list_fmap_compose f (λ p, line_format p.1 p.2)) in Heq.
    assert (Inj (=) (=) (λ p : nat * gset nat, line_format p.1 p.2)) as Hinj.
    { intros [i s] [i' s'] Hline. simpl in Hline.
      by apply line_format_inj in Hline as [-> ->]. }
    revert Heq. apply (inj (fmap _)).
  - apply Forall_fmap, Forall_forall. intros v _. apply line_format_item.
  - apply Forall_fmap, Forall_forall. intros v _. apply line_format_item.
Qed.

(** X6. The listings lose nothing. Two graphs have the same forward listing
    exactly when their vertices, taken in ascending order of the keys, carry
    the same ids and the same forward edge sets, and the same reverse listing
    exactly when they carry the same ids and the same reverse edge sets. For
    the graphs of two programs an equal forward listing therefore means as
    many rules and the same forward edge set at every vertex. *)
Theorem listings_determine_edges :
  (∀ g g',
     DependencyGraph_str g = DependencyGraph_str g' ↔
     (λ v, (vertex_id v, vertex_edges v)) <$> vertices_in_order g =
     (λ v, (vertex_id v, vertex_edges v)) <$> vertices_in_order g') ∧
  (∀ g g',
     DependencyGraph_reverse g = DependencyGraph_reverse g' ↔
     (λ v, (vertex_id v, vertex_reverse v)) <$> vertices_in_order g =
     (λ v, (vertex_id v, vertex_reverse v)) <$> vertices_in_order g') ∧
  (∀ rules rules',
     DependencyGraph_str (DependencyGraph_init predicate_id rules) =
     DependencyGraph_str (DependencyGraph_init predicate_id rules') →
     length (rules_rules rules) = length (rules_rules rules') ∧
     ∀ i, vertex_edges <$>
            graph_rules (DependencyGraph_init predicate_id rules) !! i =
          vertex_edges <$>
            graph_rules (DependencyGraph_init predicate_id rules') !! i).
Proof.
  assert (∀ g g',
     DependencyGraph_str g = DependencyGraph_str g' ↔
     (λ v, (vertex_id v, vertex_edges v)) <$> vertices_in_order g =
     (λ v, (vertex_id v, vertex_edges v)) <$> vertices_in_order g') as Hfwd.
  { intros g g'. unfold DependencyGraph_str. rewrite !over_sorted_keys_fmap.
    split.
    - apply (lines_inj (λ v, (vertex_id v, vertex_edges v))).
    - intros Heq. f_equal. f_equal.
      assert (∀ vs : list (@Vertex Predicate), Vertex_str <$> vs =
                (λ p, line_format p.1 p.2) <$>
                  ((λ v, (vertex_id v, vertex_edges v)) <$> vs)) as Hvs
        by (intros vs; by rewrite <-list_fmap_compose).
      by rewrite !Hvs, Heq. }
  split_and!; [done| |].
  - intros g g'. unfold DependencyGraph_reverse. rewrite !over_sorted_keys_fmap.
    split.
    + apply (lines_inj (λ v, (vertex_id v, vertex_reverse v))).
    + intros Heq. f_equal. f_equal.
      assert (∀ vs : list (@Vertex Predicate),
                (λ v, line_format (vertex_id v) (vertex_reverse v)) <$> vs =
                (λ p, line_format p.1 p.2) <$>
                  ((λ v, (vertex_id v, vertex_reverse v)) <$> vs)) as Hvs
        by (intros vs; by rewrite <-list_fmap_compose).
      by rewrite !Hvs, Heq.
  - intros rules rules' Heq%Hfwd. rewrite !vertices_in_order_init in Heq.
    split.
    + apply (f_equal length) in Heq. by rewrite !length_fmap, !length_imap in Heq.
    + intros i. apply (f_equal (λ l, snd <$> l !! i)) in Heq.
      rewrite !list_lookup_fmap, !list_lookup_imap in Heq.
      rewrite !DependencyGraph_lookup.
      destruct (rules_rules rules !! i), (rules_rules rules' !! i);
        simpl in *; congruence.
Qed.

(** *** Counting the lines *)

Lemma count_newlines_app (a b : string) :
  count_newlines (a +:+ b) = count_newlines a + count_newlines b.
Proof.
  unfold count_newlines.
  by rewrite list_ascii_of_string_app, filter_app, length_app.
Qed.

Lemma count_newlines_free (a : string) : newline_free a → count_newlines a = 0.
Proof.
  unfold newline_free, count_newlines.
  induction (String.list_ascii_of_string a) as [|x l IH]; [done|].
  intros [Hne Hl]%not_elem_of_cons.
  rewrite filter_cons_False by done. by apply IH.
Qed.

Lemma count_newlines_join (l : list string) :
  Forall newline_free l →
  count_newlines (join newline l) = pred (length l).
Proof.
  unfold join. induction 1 as [|x l Hx Hl IH]; [done|].
  destruct l as [|y l]; simpl.
  - by apply count_newlines_free.
  - rewrite !count_newlines_app, (count_newlines_free x Hx).
    simpl in IH. rewrite IH. done.
Qed.

(** X7. A listing holds [max 1 N] line feeds for a graph of [N] vertices: it
    ends every line with one, and for the graph without vertices it is the
    line feed alone. *)
Theorem listings_line_count :
  (∀ g, count_newlines (DependencyGraph_str g) = max 1 (size (graph_rules g)) ∧
        count_newlines (DependencyGraph_reverse g) =
          max 1 (size (graph_rules g))) ∧
  (∀ g, size (graph_rules g) = 0 →
        DependencyGraph_str g = newline ∧ DependencyGraph_reverse g = newline) ∧
  (∀ rules,
     count_newlines (DependencyGraph_str (DependencyGraph_init predicate_id rules))
     = max 1 (length (rules_rules rules))).
Proof.
  assert (∀ g (f : @Vertex Predicate → string),
            (∀ v, newline_free (f v)) →
            count_newlines (join newline (over_sorted_keys f g) +:+ newline) =
            max 1 (size (graph_rules g))) as Hcount.
  { intros g f Hf. rewrite count_newlines_app, count_newlines_join.
    - rewrite over_sorted_keys_fmap, length_fmap, length_vertices_in_order.
      change (count_newlines newline) with 1. lia.
    - rewrite over_sorted_keys_fmap. apply Forall_fmap, Forall_forall.
      intros v _. apply Hf. }
  assert (∀ g (f : @Vertex Predicate → string),
            size (graph_rules g) = 0 →
            join newline (over_sorted_keys f g) +:+ newline = newline) as Hnone.
  { intros g f Hsize. rewrite over_sorted_keys_fmap.
    pose proof (length_vertices_in_order g) as Hlen. rewrite Hsize in Hlen.
    by apply length_zero_iff_nil in Hlen as ->. }
  split_and!.
  - intros g. split; apply Hcount; intros v; apply newline_free_line_format.
  - intros g Hsize. split; by apply Hnone.
  - intros rules. unfold DependencyGraph_str. rewrite Hcount.
    + f_equal. rewrite <-size_dom, DependencyGraph_dom. apply size_set_seq.
    + intros v. apply newline_free_line_format.
Qed.

End listing_round_trip.

(** * Further properties of the optimizer *)

Section optimizer_further.
Context {Predicate PredId : Type} `{!EqDecision PredId}.
Context (predicate_id : Predicate → PredId).
Context {Query Relation Other Attrs : Type} `{!EqDecision Query}.
Context (DatalogInterpreter_init :
  @DatalogProgram Predicate Query Other → bool → Attrs * list (Query * Relation)).
Context (evaluate_query :
  @RuleOptimizer Predicate Query Relation Attrs → Query → Relation).

Implicit Types (st : @run Predicate Query Relation Attrs).
Implicit Types (qs seen : list Query) (q : Query) (d : list (Query * Relation)).

Lemma dict_keys_set d q v :
  dict_keys (dict_set d q v) =
  if decide (q ∈ dict_keys d) then dict_keys d else dict_keys d ++ [q].
Proof.
  unfold dict_keys. induction d as [|[k' v'] d IH]; cbn [dict_set].
  - case_decide as Hin; [by apply elem_of_nil in Hin|done].
  - destruct (decide (k' = q)) as [->|Hne]; cbv iota beta;
      rewrite !fmap_cons; cbn [fst].
    + clear IH. case_decide as Hnin; [done|]. destruct Hnin. by left.
    + rewrite IH. clear IH.
      destruct (decide (q ∈ d.*1)) as [Hin|Hnin],
        (decide (q ∈ k' :: d.*1)) as [Hin'|Hnin']; try done.
      * destruct Hnin'. by right.
      * apply elem_of_cons in Hin' as [->|?]; done.
Qed.

Lemma dict_get_is_Some d q : is_Some (dict_get d q) ↔ q ∈ dict_keys d.
Proof.
  unfold dict_keys. induction d as [|[k' v'] d IH]; simpl.
  - split; [by intros [? ?]|by intros ?%elem_of_nil].
  - destruct (decide (k' = q)) as [->|Hne].
    + split; [by left|by eexists].
    + rewrite IH. split; [by right|]. by intros [->|?]%elem_of_cons.
Qed.

Lemma dict_keys_query_loop qs : ∀ st,
  dict_keys (rdbms (object (query_loop evaluate_query st qs))) =
  dict_keys (rdbms (object st)) ++ fresh_queries (dict_keys (rdbms (object st))) qs.
Proof.
  induction qs as [|q qs IH]; intros st; simpl.
  - by rewrite app_nil_r.
  - rewrite IH. simpl. rewrite dict_keys_set.
    destruct (decide (q ∈ dict_keys (rdbms (object st)))); [done|].
    by rewrite <-app_assoc.
Qed.

Lemma elem_of_fresh_queries qs : ∀ seen q,
  q ∈ fresh_queries seen qs ↔ q ∈ qs ∧ q ∉ seen.
Proof.
  induction qs as [|x qs IH]; intros seen q; simpl.
  - split; [by intros ?%elem_of_nil|by intros [?%elem_of_nil _]].
  - destruct (decide (x ∈ seen)) as [Hin|Hnin].
    + rewrite IH, elem_of_cons. split; [intros [? ?]; by auto|].
      intros [[->|?] ?]; done.
    + rewrite !elem_of_cons, IH, elem_of_app, list_elem_of_singleton. split.
      * intros [->|[? ?]]; [by auto|]. split; [by right|]. by auto.
      * intros [[->|?] ?]; [by left|].
        destruct (decide (q = x)) as [->|?]; [by left|right].
        split; [done|]. by intros [?|?].
Qed.

Lemma NoDup_fresh_queries qs : ∀ seen, NoDup (fresh_queries seen qs).
Proof.
  induction qs as [|x qs IH]; intros seen; simpl; [constructor|].
  destruct (decide (x ∈ seen)); [apply IH|].
  constructor; [|apply IH].
  intros [_ Hnin]%elem_of_fresh_queries. apply Hnin, elem_of_app.
  right. by apply list_elem_of_singleton.
Qed.

(** X8. The keys of [rdbms] after the constructor, in insertion order: the
    keys that the parent constructor left, in place, followed by the queries
    that were not among them, each once, in the order of their first
    occurrence. No key is lost, and distinct keys stay distinct. *)
Theorem rdbms_keys_after_init program :
  let r := RuleOptimizer_init predicate_id DatalogInterpreter_init
             evaluate_query program in
  let keys0 := dict_keys (DatalogInterpreter_init program false).2 in
  let keys := dict_keys (rdbms (object r)) in
  keys = keys0 ++ fresh_queries keys0 (program_queries program) ∧
  (∀ q, q ∈ keys ↔ q ∈ keys0 ∨ q ∈ program_queries program) ∧
  (NoDup keys0 → NoDup keys) ∧
  length keys ≤ length keys0 + length (program_queries program).
Proof.
  intros r keys0 keys.
  assert (keys = keys0 ++ fresh_queries keys0 (program_queries program)) as Hkeys.
  { unfold keys, r, RuleOptimizer_init. rewrite dict_keys_query_loop.
    destruct (before_queries_store predicate_id DatalogInterpreter_init program)
      as [Hparent _].
    unfold keys0. by rewrite <-Hparent. }
  split_and!; [done|..].
  - intros q. rewrite Hkeys, elem_of_app, elem_of_fresh_queries.
    destruct (decide (q ∈ keys0)); tauto.
  - intros Hnd. rewrite Hkeys. apply NoDup_app. split_and!; [done| |].
    + intros q Hq [_ ?]%elem_of_fresh_queries. done.
    + apply NoDup_fresh_queries.
  - rewrite Hkeys, length_app.
    assert (∀ qs seen, length (fresh_queries seen qs) ≤ length qs) as Hlen.
    { induction qs as [|x qs IH]; intros seen; simpl; [done|].
      case_decide; simpl; [specialize (IH seen)|specialize (IH (seen ++ [x]))];
        lia. }
    specialize (Hlen (program_queries program) keys0). lia.
Qed.

(** X9. What the constructor leaves alone: the inherited attributes are
    those of the parent constructor, the graph is the graph of the rules of
    the program whatever the queries, every entry of [rdbms] whose key is not
    a query is as the parent constructor left it, no key is removed, and
    without queries [rdbms] is unchanged. *)
Theorem constructor_frame program :
  let obj := object (RuleOptimizer_init predicate_id DatalogInterpreter_init
                       evaluate_query program) in
  let parent := DatalogInterpreter_init program false in
  attrs obj = parent.1 ∧
  dependency_graph obj =
    Some (DependencyGraph_init predicate_id (program_rules program)) ∧
  (∀ q, q ∉ program_queries program →
        dict_get (rdbms obj) q = dict_get parent.2 q) ∧
  (∀ q, is_Some (dict_get parent.2 q) → is_Some (dict_get (rdbms obj) q)) ∧
  (program_queries program = [] → rdbms obj = parent.2).
Proof.
  intros obj parent. unfold obj, RuleOptimizer_init.
  destruct (before_queries_store predicate_id DatalogInterpreter_init program)
    as [Hparent Hgraph].
  fold parent in Hparent. split_and!.
  - rewrite attrs_query_loop. by rewrite <-Hparent.
  - by rewrite dependency_graph_query_loop.
  - intros q Hq. rewrite dict_get_query_loop_other by done. by rewrite <-Hparent.
  - intros q. rewrite !dict_get_is_Some, dict_keys_query_loop, elem_of_app.
    rewrite <-Hparent. by left.
  - intros ->. simpl. by rewrite <-Hparent.
Qed.

(** X10. A query is evaluated on an object whose [rdbms] already holds the
    results of the queries before it: when item [k] is evaluated, the entry
    under an earlier item [j] is the result of the evaluation of that item,
    unless the same query came again in between. *)
Theorem earlier_results_visible program j k q :
  j < k →
  program_queries program !! j = Some q →
  (∀ j', j < j' < k → program_queries program !! j' ≠ Some q) →
  dict_get
    (rdbms (at_query predicate_id DatalogInterpreter_init evaluate_query
              program k)) q =
  Some (evaluate_query
          (at_query predicate_id DatalogInterpreter_init evaluate_query
             program j) q).
Proof.
  intros Hjk Hj Hbetween. unfold at_query.
  set (qs := program_queries program) in *.
  assert (take k qs = take j qs ++ q :: take (k - S j) (drop (S j) qs)) as ->.
  { rewrite <-(take_drop_middle qs j q Hj) at 1.
    rewrite take_app_ge; rewrite length_take_le;
      try (apply lookup_lt_Some in Hj; lia).
    f_equal. replace (k - j) with (S (k - S j)) by lia. done. }
  rewrite query_loop_app. simpl. rewrite dict_get_query_loop_other.
  - simpl. apply dict_get_set_eq.
  - intros (i & Hi)%list_elem_of_lookup_1.
    apply lookup_take_Some in Hi as [Hi Hlt]. rewrite lookup_drop in Hi.
    apply (Hbetween (S j + i)); [lia|done].
Qed.

(** *** The report *)

Lemma append_assoc (a b c : string) : (a +:+ b) +:+ c = a +:+ (b +:+ c).
Proof.
  induction a as [|x a IH]; [done|].
  change (String x ((a +:+ b) +:+ c) = String x (a +:+ b +:+ c)). by f_equal.
Qed.

Lemma append_empty_r (a : string) : a +:+ "" = a.
Proof.
  induction a as [|x a IH]; [done|].
  change (String x (a +:+ "") = String x a). by f_equal.
Qed.

Lemma str_loop_is_Some (results : gmap nat string) indices : ∀ result,
  is_Some (str_loop results indices result) ↔
  ∀ i, i ∈ indices → is_Some (results !! i).
Proof.
  induction indices as [|i indices IH]; intros result; simpl.
  - split; [by intros _ i ?%elem_of_nil|by eexists].
  - destruct (results !! i) as [part|] eqn:Hi; simpl.
    + rewrite IH. split.
      * intros Hall j [->|?]%elem_of_cons; [by rewrite Hi|by apply Hall].
      * intros Hall j Hj. apply Hall. by right.
    + split; [by intros [? ?]|]. intros Hall.
      destruct (Hall i) as [? Hsome]; [by left|]. by rewrite Hi in Hsome.
Qed.

Lemma str_loop_parts (results : gmap nat string) indices : ∀ result parts,
  Forall2 (λ i part, results !! i = Some part) indices parts →
  str_loop results indices result = Some (result +:+ join "" parts).
Proof.
  unfold join.
  induction indices as [|i indices IH]; intros result parts Hparts.
  - apply Forall2_nil_inv_l in Hparts as ->. simpl. by rewrite append_empty_r.
  - apply Forall2_cons_inv_l in Hparts as (part & parts' & Hi & Hparts & ->).
    cbn [str_loop]. rewrite Hi. simpl. rewrite (IH _ parts' Hparts). f_equal.
    rewrite append_assoc.
    destruct parts' as [|part' parts']; simpl; [by rewrite append_empty_r|done].
Qed.

(** X11. The report of a constructed optimizer. [__str__] returns exactly
    when the shared dict holds an entry for every index below the number of
    keys of [rdbms]; otherwise the last loop raises. When it returns, the
    report is the header [Dependency Graph], the forward listing of the
    graph of the rules and an empty line, the header [Rule Evaluation] and
    an empty line, and then the entries of the dict in ascending order of the
    indices. *)
Theorem report_of_constructed program (results : gmap nat string) :
  let obj := object (RuleOptimizer_init predicate_id DatalogInterpreter_init
                       evaluate_query program) in
  let n := length (dict_keys (rdbms obj)) in
  let graph := DependencyGraph_init predicate_id (program_rules program) in
  (is_Some (RuleOptimizer_str obj results) ↔
   ∀ i, i < n → is_Some (results !! i)) ∧
  (∀ parts, length parts = n →
     (∀ i part, parts !! i = Some part → results !! i = Some part) →
     RuleOptimizer_str obj results =
     Some ("Dependency Graph" +:+ newline +:+
           DependencyGraph_str graph +:+ newline +:+
           "Rule Evaluation" +:+ newline +:+ newline +:+
           join "" parts)).
Proof.
  intros obj n graph.
  assert (dependency_graph obj = Some graph) as Hgraph.
  { unfold obj, RuleOptimizer_init. rewrite dependency_graph_query_loop.
    apply (before_queries_store predicate_id DatalogInterpreter_init program). }
  assert (rule_evaluation obj = Some "") as Htext.
  { unfold obj, RuleOptimizer_init. rewrite rule_evaluation_query_loop.
    apply before_queries_rule_evaluation. }
  unfold RuleOptimizer_str. rewrite Hgraph, Htext. simpl. fold n. split.
  - rewrite str_loop_is_Some. split.
    + intros Hall i Hi. apply Hall, elem_of_seq. lia.
    + intros Hall i Hi%elem_of_seq. apply Hall. lia.
  - intros parts Hlen Hparts. rewrite (str_loop_parts _ _ _ parts).
    + f_equal. by rewrite !append_assoc.
    + apply Forall2_same_length_lookup. split; [by rewrite length_seq|].
      intros i j part Hj%lookup_seq Hpart. destruct Hj as [-> _].
      by apply Hparts.
Qed.

End optimizer_further.

(** * Further properties of the constructors over a store *)

Module HeapFurther.
Section heap_further.
Context {Predicate PredId : Type} `{!EqDecision PredId}.
Context (predicate_id : Predicate → PredId).

Implicit Types (h : gmap nat (@Heap.obj Predicate)) (d : gmap nat nat).
Implicit Types (o rule lst : nat) (rs : list nat).

(** *** Reads survive in a larger store *)




Lemma get_rules_mono h h' o x :
  h ⊆ h' → Heap.get_rules h o = Some x → Heap.get_rules h' o = Some x.
Proof.
  intros Hsub. unfold Heap.get_rules.
  destruct (h !! o) as [obj|] eqn:Ho; [|done].
  by rewrite (lookup_weaken _ _ _ _ Ho Hsub).
Qed.




(** *** The vertices that the loop allocates *)






(** *** When the construction returns *)






End heap_further.
End HeapFurther.

(** ** The further properties at the example programs *)

Lemma graph_depends_on_ids_only_witness :
  Forall2 (same_ids example_id)
    (rules_rules chain_rules) (rules_rules chain_rules_renamed) ∧
  DependencyGraph_str (DependencyGraph_init example_id chain_rules) =
  DependencyGraph_str (DependencyGraph_init example_id chain_rules_renamed).
Proof.
  assert (Forall2 (same_ids example_id)
            (rules_rules chain_rules) (rules_rules chain_rules_renamed)) as Hsame.
  { unfold chain_rules, chain_rules_renamed; simpl.
    repeat (constructor;
              [split; [reflexivity|];
               intros x; rewrite !list_elem_of_In; simpl; tauto|]).
    constructor. }
  split; [exact Hsame|].
  pose proof (graph_depends_on_ids_only example_id chain_rules
                chain_rules_renamed Hsame) as Hthm.
  cbv zeta in Hthm. exact (proj1 (proj2 (proj2 Hthm))).
Defined.

Lemma earlier_results_visible_witness :
  0 < 1 ∧
  program_queries example_program !! 0 = Some "anc(a,X)?" ∧
  (∀ j', 0 < j' < 1 → program_queries example_program !! j' ≠ Some "anc(a,X)?") ∧
  dict_get
    (rdbms (at_query example_id example_super_init example_evaluate_query
              example_program 1)) "anc(a,X)?" =
  Some ("anc(a,X)?", 0).
Proof.
  assert (∀ j', 0 < j' < 1 →
            program_queries example_program !! j' ≠ Some "anc(a,X)?") as Hnone
    by (intros j' ?; lia).
  split; [lia|]. split; [reflexivity|]. split; [exact Hnone|].
  exact (earlier_results_visible example_id example_super_init
           example_evaluate_query example_program 0 1 "anc(a,X)?"
           (Nat.lt_0_succ 0) eq_refl Hnone).
Defined.


